(** * CRTree: induction of one regression tree (src/CRTree.cpp)

    A shallow embedding of [CRTree.cpp].  The C++ class keeps its tree in two
    flat arrays and grows it by a recursive procedure whose inner loop draws
    random pixel tests and thresholds.  The embedding keeps that shape:

    - [int] and [size_t] values are [Z] and [nat]; every quantity met below
      (pixel differences in [-255, 255], node indices, sizes) stays far inside
      the 32-bit range, so no wrap-around is written;
    - [double] is the kernel's binary64 type [float]; the score arithmetic
      ([-], [*], [>]) is IEEE arithmetic, evaluated by the kernel;
    - the random source [cv::theRNG()] is a stream of raw draws with a read
      position, threaded through the code;
    - [log (cv::determinant (cov))], computed by OpenCV and libm, is a
      parameter [logdet] of the development;
    - undefined behaviour (reading [data[0]] of an empty vector, writing the
      node table out of range) is an explicit fault. *)

From Stdlib Require Import ZArith QArith List Lia Bool Sorted Permutation.
From Stdlib Require Import Floats.PrimFloat Numbers.Cyclic.Int63.Uint63.
From stdpp Require Import base list.
Import ListNotations.

Local Open Scope Z_scope.

(** ** Data model *)

(** [cv::Mat] restricted to what the code reads: a single-channel 8-bit grid
    with its size and its pixels, row by row. *)
Record Mat := mkMat {
  mat_width : Z;
  mat_height : Z;
  mat_rows : list (list Z)
}.

(** [m.at<uchar>(row, col)] *)
Definition mat_at (m : Mat) (row col : Z) : Z :=
  nth (Z.to_nat col) (nth (Z.to_nat row) (mat_rows m) []) 0.

(** [ImagePatch]: the pixel grid and the two regression targets.  A finite
    [float] label is the rational it denotes. *)
Record ImagePatch := mkPatch {
  patch : Mat;
  pitch : Q;
  yaw : Q
}.

(** [TrainingSet]: [std::vector<ImagePatch>]. *)
Abbreviation TrainingSet := (list ImagePatch).

(** [IntIndex (difference, index)]: a pixel difference and the position of its
    patch in the unsorted working set. *)
Record IntIndex := mkIntIndex {
  difference : Z;
  index : nat
}.

(** The random source: [draws] is the sequence of raw values the seeded
    generator yields, [pos] the number of values consumed so far. *)
Record RNG := mkRNG {
  draws : nat -> Z;
  pos : nat
}.

Definition rng_next (g : RNG) : Z * RNG :=
  (draws g (pos g), mkRNG (draws g) (S (pos g))).

(** [cv::RNG::uniform (a, b)]: an integer of [[a, b)]; [a] itself, with no
    draw consumed, when the range is empty. *)
Definition uniform (a b : Z) (g : RNG) : Z * RNG :=
  if a =? b then (a, g)
  else let (r, g') := rng_next g in (a + r mod (b - a), g').

(** Faults: the ways a run leaves defined behaviour. *)
Inductive fault :=
| EmptyRead                       (* [data[0]] / [front()] of an empty vector *)
| BadIndex (i : nat)              (* [data[i]] with [i] past the end *)
| TableOutOfBounds (node : Z)     (* [treetable[node*7 + k]] outside the array *)
| OutOfFuel.

Inductive result (A : Type) :=
| Ok (a : A)
| Fault (f : fault).
Arguments Ok {A} a.
Arguments Fault {A} f.

Definition bind {A B : Type} (r : result A) (k : A -> result B) : result B :=
  match r with
  | Ok a => k a
  | Fault f => Fault f
  end.

Notation "'try' x ':=' r 'in' k" := (bind r (fun x => k))
  (at level 10, x pattern, r at level 100, k at level 200,
   format "'[v' 'try'  x  ':='  r  'in' '/' k ']'").

(** ** Test generation and evaluation *)

(** A binary test is the array [int test[6]]; slots the code never assigns
    hold an indeterminate value, written [0] here. *)
Definition Test := list Z.

Definition test_at (t : Test) (k : nat) : Z := nth k t 0.

(** [CRTree::generateTest] *)
Definition generateTest (width height : Z) (g : RNG) : Test * RNG :=
  let (t0, g) := uniform 0 width g in
  let (t1, g) := uniform 0 height g in
  let (t2, g) := uniform 0 width g in
  let (t3, g) := uniform 0 height g in
  ([t0; t1; t2; t3; 0; 0], g).

(** Modelled from the spec: [IntIndex::operator<] is declared in CRTree.h,
    which is not among the sources; section 4.3 has the sequence sorted
    ascending by [difference], ties in any order.  [std_sort] is the stable
    insertion sort for that order. *)
Fixpoint sort_insert (v : IntIndex) (l : list IntIndex) : list IntIndex :=
  match l with
  | [] => [v]
  | x :: l' =>
      if difference x <? difference v then x :: sort_insert v l' else v :: l
  end.

Definition std_sort (l : list IntIndex) : list IntIndex :=
  fold_right sort_insert [] l.

(** The entries one call of [evaluateTest] pushes: one per patch, in order,
    numbered from [i]. *)
Fixpoint evaluate_from (i : nat) (data : TrainingSet) (test : Test)
  : list IntIndex :=
  match data with
  | [] => []
  | it :: data' =>
      let m1 := mat_at (patch it) (test_at test 1) (test_at test 0) in
      let m2 := mat_at (patch it) (test_at test 3) (test_at test 2) in
      mkIntIndex (m1 - m2) i :: evaluate_from (S i) data' test
  end.

(** [CRTree::evaluateTest]: pushes onto the [valSet] it is handed, then sorts
    the whole vector. *)
Definition evaluateTest (data : TrainingSet) (test : Test)
  (valSet : list IntIndex) : list IntIndex :=
  std_sort (valSet ++ evaluate_from 0 data test).

(** ** Splitting *)

(** [std::upper_bound (first, last, value, comp)] as the standard library
    writes it: a binary search that halves [len], moving left when
    [comp (value, *middle)] holds and right otherwise. *)
Fixpoint upper_bound_loop (fuel : nat) (comp : IntIndex -> bool)
  (v : list IntIndex) (first len : nat) : nat :=
  match fuel with
  | O => first
  | S fuel' =>
      if (len =? 0)%nat then first
      else
        let half := (len / 2)%nat in
        let middle := (first + half)%nat in
        if comp (nth middle v (mkIntIndex 0 0))
        then upper_bound_loop fuel' comp v first half
        else upper_bound_loop fuel' comp v (S middle) (len - half - 1)%nat
  end.

Definition upper_bound (comp : IntIndex -> bool) (v : list IntIndex) : nat :=
  upper_bound_loop (length v) comp v 0%nat (length v).

(** The lambda of [CRTree::split]:
    [(threshold, a) -> a.difference < threshold]. *)
Definition split_comp (tr : Z) (a : IntIndex) : bool := difference a <? tr.

(** [partX.push_back (data[it->index])] over a run of entries. *)
Fixpoint push_back_all (data : TrainingSet) (part : TrainingSet)
  (vs : list IntIndex) : result TrainingSet :=
  match vs with
  | [] => Ok part
  | v :: vs' =>
      match data !! index v with
      | Some p => push_back_all data (part ++ [p]) vs'
      | None => Fault (BadIndex (index v))
      end
  end.

(** [CRTree::split]: appends to the [partA] and [partB] it is handed. *)
Definition split (data : TrainingSet) (tr : Z) (valSet : list IntIndex)
  (partA partB : TrainingSet) : result (TrainingSet * TrainingSet) :=
  let cutoff := upper_bound (split_comp tr) valSet in
  try partA' := push_back_all data partA (firstn cutoff valSet) in
  try partB' := push_back_all data partB (skipn cutoff valSet) in
  Ok (partA', partB').

(** ** Information gain and split search *)

Section SplitSearch.

(** [N_THRESHOLD_IT], a constant of CRTree.h (not among the sources): the
    number of thresholds tried per candidate test. *)
Variable N_THRESHOLD_IT : nat.

(** [log (cv::determinant (cov))] of a two-column (pitch, yaw) sample matrix,
    where [cov] is what [cv::calcCovarMatrix] returns under
    [CV_COVAR_NORMAL | CV_COVAR_SCALE]. *)
Variable logdet : list (Q * Q) -> float.

(** The sample matrix [P] built from a set: one (pitch, yaw) row per patch. *)
Definition samples_of (s : TrainingSet) : list (Q * Q) :=
  map (fun p => (pitch p, yaw p)) s.

(** A [size_t] converted to [double]. *)
Definition double_of_size (n : nat) : float :=
  PrimFloat.of_uint63 (Uint63.of_Z (Z.of_nat n)).

(** [double Wl = partA.size () / parent.size ()]: the quotient of two
    [size_t], taken before the conversion to [double]. *)
Definition weight (part parent : TrainingSet) : float :=
  double_of_size (length part / length parent)%nat.

(** [CRTree::measureInformationGain].  [parent] is never empty where the code
    calls it. *)
Definition measureInformationGain (parent partA partB : TrainingSet) : float :=
  let Wl := weight partA parent in
  let Wr := weight partB parent in
  (logdet (samples_of parent)
   - Wr * logdet (samples_of partB)
   - Wl * logdet (samples_of partA))%float.

Definition DBL_MAX : float := 0x1.fffffffffffffp+1023%float.

(** The locals of [CRTree::optimizeTest] together with its out-parameters
    [test], [partA], [partB] and the random source.  [scored] is a ghost
    field: the scores of the candidates that reached
    [measureInformationGain], most recent first; no branch reads it. *)
Record OptState := mkOpt {
  valSet : list IntIndex;
  tmpA : TrainingSet;
  tmpB : TrainingSet;
  bestSplit : float;
  ret : bool;
  test : Test;
  partA : TrainingSet;
  partB : TrainingSet;
  rng : RNG;
  scored : list float
}.

(** One pass of the threshold loop (lines 107-129). *)
Definition threshold_body (data : TrainingSet) (tmpTest : Test)
  (vmin vmax : Z) (st : OptState) : result OptState :=
  let (tr, g) := uniform vmin vmax (rng st) in
  try parts := split data tr (valSet st) (tmpA st) (tmpB st) in
  let (tmpA', tmpB') := parts : TrainingSet * TrainingSet in
  if (0 <? length tmpA')%nat && (0 <? length tmpB')%nat then
    let score := measureInformationGain data tmpA' tmpB' in
    if PrimFloat.ltb (bestSplit st) score then
      Ok (mkOpt (valSet st) tmpA' tmpB' score true
                (firstn 5 tmpTest ++ [tr]) tmpA' tmpB' g
                (score :: scored st))
    else
      Ok (mkOpt (valSet st) tmpA' tmpB' (bestSplit st) (ret st)
                (test st) (partA st) (partB st) g
                (score :: scored st))
  else
    Ok (mkOpt (valSet st) tmpA' tmpB' (bestSplit st) (ret st)
              (test st) (partA st) (partB st) g (scored st)).

Fixpoint threshold_loop (n : nat) (data : TrainingSet) (tmpTest : Test)
  (vmin vmax : Z) (st : OptState) : result OptState :=
  match n with
  | O => Ok st
  | S n' =>
      try st' := threshold_body data tmpTest vmin vmax st in
      threshold_loop n' data tmpTest vmin vmax st'
  end.

(** One pass of the outer loop (lines 93-131). *)
Definition outer_body (data : TrainingSet) (width height : Z)
  (st : OptState) : result OptState :=
  let (tmpTest, g) := generateTest width height (rng st) in
  let valSet' := evaluateTest data tmpTest (valSet st) in
  let st1 := mkOpt valSet' (tmpA st) (tmpB st) (bestSplit st) (ret st)
                   (test st) (partA st) (partB st) g (scored st) in
  match valSet' with
  | [] => Fault EmptyRead
  | front :: _ =>
      let vmin := difference front in
      let vmax := difference (List.last valSet' front) in
      if vmax - vmin >? 0
      then threshold_loop N_THRESHOLD_IT data tmpTest vmin vmax st1
      else Ok st1
  end.

Fixpoint outer_loop (n : nat) (data : TrainingSet) (width height : Z)
  (st : OptState) : result OptState :=
  match n with
  | O => Ok st
  | S n' =>
      try st' := outer_body data width height st in
      outer_loop n' data width height st'
  end.

(** [CRTree::optimizeTest].  The returned state holds [ret] and the
    out-parameters. *)
Definition optimizeTest (partA0 partB0 : TrainingSet) (data : TrainingSet)
  (iter : nat) (test0 : Test) (g : RNG) : result OptState :=
  match data with
  | [] => Fault EmptyRead
  | d0 :: _ =>
      let width := mat_width (patch d0) in
      let height := mat_height (patch d0) in
      outer_loop iter data width height
        (mkOpt [] [] [] (- DBL_MAX)%float false test0 partA0 partB0 g [])
  end.

End SplitSearch.

(** ** Tree storage *)

(** Modelled from the spec: [LeafNode] is declared in CRTree.h, which is not
    among the sources; section 3 gives it the count of patches that reached
    the leaf and the mean and dispersion of pitch and yaw. *)
Record LeafNode := mkLeaf {
  leaf_count : Z;
  leaf_mean : Q * Q;
  leaf_dispersion : Q * Q
}.

Definition blank_leaf : LeafNode := mkLeaf 0 (0%Q, 0%Q) (0%Q, 0%Q).

(** The members of [CRTree]. *)
Record CRTree := mkTree {
  minSamples : Z;
  maxDepth : Z;
  numLeaves : Z;
  numNodes : Z;
  treetable : list Z;
  leaf : list LeafNode
}.

(** [CRTree::CRTree]: [numNodes = 2^(maxDepth+1) - 1], a zero-filled table of
    [numNodes * 7] ints and [2^maxDepth] leaf records. *)
Definition CRTree_new (minSamples maxDepth : Z) : CRTree :=
  let numNodes := 2 ^ (maxDepth + 1) - 1 in
  mkTree minSamples maxDepth 0 numNodes
         (repeat 0 (Z.to_nat (numNodes * 7)))
         (repeat blank_leaf (Z.to_nat (2 ^ maxDepth))).

(** [treetable[i] = v]; a write outside the array is a fault. *)
Definition table_write (i v : Z) (t : CRTree) : result CRTree :=
  if (0 <=? i) && (i <? Z.of_nat (length (treetable t)))
  then Ok (mkTree (minSamples t) (maxDepth t) (numLeaves t) (numNodes t)
                  (<[Z.to_nat i := v]> (treetable t)) (leaf t))
  else Fault (TableOutOfBounds i).

(** [CRTree::makeLeaf].  The working set is not read: the statistics are a
    TODO of the source. *)
Definition makeLeaf (data : TrainingSet) (node : Z) (t : CRTree)
  : result CRTree :=
  try t1 := table_write (node * 7) (numLeaves t) t in
  Ok (mkTree (minSamples t1) (maxDepth t1) (numLeaves t1 + 1) (numNodes t1)
             (treetable t1) (leaf t1)).

(** Lines 50-53 of [CRTree::grow]: the marker [-1], then the six test
    parameters. *)
Fixpoint store_params (base : Z) (k : nat) (params : list Z) (t : CRTree)
  : result CRTree :=
  match params with
  | [] => Ok t
  | v :: params' =>
      try t1 := table_write (base + Z.of_nat k) v t in
      store_params base (S k) params' t1
  end.

Definition store_test (node : Z) (tst : Test) (t : CRTree) : result CRTree :=
  try t1 := table_write (node * 7) (-1) t in
  store_params (node * 7 + 1) 0 (firstn 6 tst) t1.

(** ** Tree induction *)

(** What a run works on: the tree, the process-wide random source, and a
    ghost log of the calls of [grow] (node, depth), oldest first. *)
Record World := mkWorld {
  tree : CRTree;
  source : RNG;
  calls : list (Z * Z)
}.

(** A run ends in a world, with the fault that stopped it if one did. *)
Definition outcome := (World * option fault)%type.

Definition and_then (o : outcome) (k : World -> outcome) : outcome :=
  match o with
  | (w, None) => k w
  | (w, Some f) => (w, Some f)
  end.

Definition on_tree (w : World) (r : result CRTree) : outcome :=
  match r with
  | Ok t => (mkWorld t (source w) (calls w), None)
  | Fault f => (w, Some f)
  end.

Section Induction.

Variable N_THRESHOLD_IT : nat.
Variable logdet : list (Q * Q) -> float.

(** The array [int test[6]] of [grow] before [optimizeTest] fills it. *)
Definition test_uninit : Test := [0; 0; 0; 0; 0; 0].

(** [CRTree::grow] *)
Fixpoint grow (fuel : nat) (data : TrainingSet) (node depth : Z)
  (samples : nat) (w : World) : outcome :=
  match fuel with
  | O => (w, Some OutOfFuel)
  | S fuel' =>
      let w := mkWorld (tree w) (source w) (calls w ++ [(node, depth)]) in
      if depth <? maxDepth (tree w) then
        on_tree w (makeLeaf data node (tree w))
      else
        match optimizeTest N_THRESHOLD_IT logdet [] [] data samples
                           test_uninit (source w) with
        | Fault f => (w, Some f)
        | Ok st =>
            let w := mkWorld (tree w) (rng st) (calls w) in
            if ret st then
              and_then (on_tree w (store_test node (test st) (tree w)))
                (fun w =>
              and_then
                (if minSamples (tree w) <? Z.of_nat (length (partA st))
                 then grow fuel' (partA st) (2 * node + 1) (depth + 1) samples w
                 else on_tree w (makeLeaf (partA st) (2 * node + 1) (tree w)))
                (fun w =>
                 if minSamples (tree w) <? Z.of_nat (length (partB st))
                 then grow fuel' (partB st) (2 * node + 2) (depth + 1) samples w
                 else on_tree w (makeLeaf (partB st) (2 * node + 2) (tree w))))
            else
              on_tree w (makeLeaf data node (tree w))
        end
  end.

(** [CRTree::growTree]: reseeds the random source ([seeded] is the sequence
    the new seed yields) and grows from node 0 at depth 0, with
    [patches.size ()] as [samples]. *)
Definition growTree (fuel : nat) (patches : TrainingSet) (seeded : nat -> Z)
  (t : CRTree) : outcome :=
  grow fuel patches 0 0 (length patches) (mkWorld t (mkRNG seeded 0) []).

End Induction.

(** ** A concrete training run *)

(** The determinant of the population covariance of a (pitch, yaw) sample,
    exactly.  With [n] rows, [n^2] times the covariance of x and y is
    [n * sum (x*y) - sum x * sum y]; the determinant is the 2x2 determinant
    of these over [n^4]. *)
Definition qsum (l : list Q) : Q := fold_right (fun a s => Qred (a + s)) 0%Q l.

Definition cov_det (rows : list (Q * Q)) : Q :=
  let n := inject_Z (Z.of_nat (length rows)) in
  let sx := qsum (map fst rows) in
  let sy := qsum (map snd rows) in
  let cxx := (n * qsum (map (fun r => fst r * fst r) rows) - sx * sx)%Q in
  let cyy := (n * qsum (map (fun r => snd r * snd r) rows) - sy * sy)%Q in
  let cxy := (n * qsum (map (fun r => fst r * snd r) rows) - sx * sy)%Q in
  Qred ((cxx * cyy - cxy * cxy) / (n * n * n * n)).

(** [logdet] where it is known exactly: [log 1 = 0] and [log 0 = -inf].
    [other] stands for every other value. *)
Definition logdet_cases (other : float) (rows : list (Q * Q)) : float :=
  let d := cov_det rows in
  if Qeq_bool d 1 then 0%float
  else if Qeq_bool d 0 then neg_infinity
  else other.

(** Four patches of width 2 and height 1; the targets (+-1, +-1) have the
    identity as covariance. *)
Definition px (a b : Z) (p y : Q) : ImagePatch :=
  mkPatch (mkMat 2 1 [[a; b]]) p y.

Definition patches4 : TrainingSet :=
  [px 1 0 1 1; px 1 0 1 (-1); px 1 0 (-1) 1; px 3 0 (-1) (-1)].

(** A random source that yields 0 first and 1 ever after. *)
Definition seed01 (i : nat) : Z := if (i =? 0)%nat then 0 else 1.

(** The same pixels with one common target: the covariance is zero. *)
Definition patches4_flat : TrainingSet :=
  [px 1 0 0 0; px 1 0 0 0; px 1 0 0 0; px 3 0 0 0].

(** Two patches and a sorted difference sequence over them. *)
Definition two_patches : TrainingSet := [px 1 0 0 0; px 3 0 0 0].

Definition two_diffs : list IntIndex := [mkIntIndex 1 0; mkIntIndex 3 1].

(** What is left of an outcome once the random source is set aside. *)
Definition table_of (o : outcome) : list Z := treetable (tree (fst o)).
Definition leaves_of (o : outcome) : Z := numLeaves (tree (fst o)).
Definition calls_of (o : outcome) : list (Z * Z) := calls (fst o).
Definition fault_of (o : outcome) : option fault := snd o.

(** The order [std::sort] establishes. *)
Definition by_difference (a b : IntIndex) : Prop :=
  difference a <= difference b.

(** The locals of [optimizeTest] as its first outer pass finds them, the
    out-parameters empty. *)
Definition opt_init (g : RNG) : OptState :=
  mkOpt [] [] [] (- DBL_MAX)%float false test_uninit [] [] g [].

(** A score beats the initial [bestSplit = -DBL_MAX]. *)
Definition beats_initial (s : float) : bool := PrimFloat.ltb (- DBL_MAX) s.

(** Every entry of [valSet] points into [data]. *)
Definition indexed (data : TrainingSet) (st : OptState) : Prop :=
  List.Forall (fun v => (index v < length data)%nat) (valSet st).

(** [ret] records whether some scored candidate beat the initial best, and
    [bestSplit] is untouched until one does. *)
Definition score_inv (st : OptState) : Prop :=
  ret st = existsb beats_initial (scored st) /\
  (ret st = false -> bestSplit st = (- DBL_MAX)%float).

(** A temporary or returned part is empty or holds at least [n] patches. *)
Definition whole (n : nat) (part : TrainingSet) : Prop :=
  length part = 0%nat \/ (n <= length part)%nat.

Definition parts_inv (n : nat) (st : OptState) : Prop :=
  whole n (tmpA st) /\ whole n (tmpB st) /\
  (ret st = true ->
   (n <= length (partA st))%nat /\ (n <= length (partB st))%nat).

(** The pixel coordinates of a test lie inside a [width] x [height] patch. *)
Definition inside_patch (width height : Z) (t : Test) : Prop :=
  0 <= test_at t 0 < width /\ 0 <= test_at t 1 < height /\
  0 <= test_at t 2 < width /\ 0 <= test_at t 3 < height.

(** The entry [v] of a difference sequence points at the patch [p]. *)
Definition points_at (data : TrainingSet) (v : IntIndex) (p : ImagePatch)
  : Prop :=
  data !! index v = Some p.

(** A call (node, depth) sits in the array slots of its level: level [d] of
    the complete binary tree is stored at [2^d - 1 .. 2^(d+1) - 2]. *)
Definition heap_slot (c : Z * Z) : Prop :=
  0 <= snd c /\ 2 ^ snd c - 1 <= fst c <= 2 ^ (snd c + 1) - 2.

(** The tree a run that writes one leaf at the root leaves behind. *)
Definition root_leaf (t : CRTree) : CRTree :=
  mkTree (minSamples t) (maxDepth t) (numLeaves t + 1) (numNodes t)
         (<[0%nat := numLeaves t]> (treetable t)) (leaf t).

(** The random source [g'] is [g] after at most [k] further draws. *)
Definition advanced (k : nat) (g g' : RNG) : Prop :=
  draws g' = draws g /\ (pos g <= pos g' <= pos g + k)%nat.

(** The difference a test assigns to a patch (lines 154-157). *)
Definition test_difference (test : Test) (it : ImagePatch) : Z :=
  mat_at (patch it) (test_at test 1) (test_at test 0)
  - mat_at (patch it) (test_at test 3) (test_at test 2).

(** What [optimizeTest] may hand back in [partA] and [partB]: patches of the
    working set. *)
Definition drawn_from (data part : TrainingSet) : Prop :=
  List.Forall (fun p => In p data) part.

(** [t] with [l] as its node table. *)
Definition with_table (t : CRTree) (l : list Z) : CRTree :=
  mkTree (minSamples t) (maxDepth t) (numLeaves t) (numNodes t) l (leaf t).

(** What no write of a run changes in the tree: the configuration, the leaf
    array and the size of the node table; [numLeaves] only grows. *)
Definition same_frame (t t' : CRTree) : Prop :=
  minSamples t' = minSamples t /\ maxDepth t' = maxDepth t /\
  numNodes t' = numNodes t /\ leaf t' = leaf t /\
  length (treetable t') = length (treetable t) /\
  numLeaves t <= numLeaves t'.

(** [w'] is a world a run started in [w] can be in. *)
Definition run_extends (w w' : World) : Prop :=
  same_frame (tree w) (tree w') /\
  draws (source w') = draws (source w) /\
  (pos (source w) <= pos (source w'))%nat /\
  exists more, calls w' = calls w ++ more.

(** The outcome [o] of a piece of a run started in [w]: its world extends
    [w], and under [h] its call log stays within the heap numbering if the
    log of [w] was. *)
Definition run_ok (h : Prop) (w : World) (o : outcome) : Prop :=
  run_extends w (fst o) /\
  (h -> List.Forall heap_slot (calls w) ->
   List.Forall heap_slot (calls (fst o))).

(** A patch of 8-bit pixels: every stored value is a [uchar]. *)
Definition uchar_patch (p : ImagePatch) : Prop :=
  List.Forall (List.Forall (fun v => 0 <= v <= 255)) (mat_rows (patch p)).

(** A difference of two [uchar] values. *)
Definition uchar_difference (v : IntIndex) : Prop :=
  -255 <= difference v <= 255.

(** * Properties *)

(** ** Sorting *)

Lemma sort_insert_Forall (P : IntIndex -> Prop) v l :
  P v -> List.Forall P l -> List.Forall P (sort_insert v l).
Proof.
  intros Hv Hl. induction Hl as [|x l Hx Hl IH]; simpl.
  - constructor; [exact Hv | constructor].
  - destruct (difference x <? difference v).
    + constructor; assumption.
    + constructor; [exact Hv | constructor; assumption].
Qed.

Lemma sort_insert_sorted v l :
  StronglySorted by_difference l ->
  StronglySorted by_difference (sort_insert v l).
Proof.
  induction 1 as [|x l Hs IH Hx]; simpl.
  - constructor; constructor.
  - destruct (difference x <? difference v) eqn:E.
    + constructor; [exact IH|].
      apply sort_insert_Forall; [|exact Hx].
      unfold by_difference. apply Z.ltb_lt in E. lia.
    + apply Z.ltb_ge in E.
      constructor; [constructor; assumption|].
      constructor; [exact E|].
      eapply List.Forall_impl; [|exact Hx].
      unfold by_difference. intros a Ha. lia.
Qed.

Lemma std_sort_sorted l : StronglySorted by_difference (std_sort l).
Proof.
  induction l as [|v l IH]; simpl.
  - constructor.
  - apply sort_insert_sorted, IH.
Qed.

Lemma sort_insert_length v l : length (sort_insert v l) = S (length l).
Proof.
  induction l as [|x l IH]; simpl; [reflexivity|].
  destruct (difference x <? difference v); simpl; congruence.
Qed.

Lemma std_sort_length l : length (std_sort l) = length l.
Proof.
  induction l as [|v l IH]; simpl; [reflexivity|].
  rewrite sort_insert_length. congruence.
Qed.

Lemma std_sort_Forall (P : IntIndex -> Prop) l :
  List.Forall P l -> List.Forall P (std_sort l).
Proof.
  induction 1 as [|v l Hv Hl IH]; simpl.
  - constructor.
  - apply sort_insert_Forall; assumption.
Qed.

Lemma sorted_nth v :
  StronglySorted by_difference v ->
  forall d (i j : nat), (i <= j)%nat -> (j < length v)%nat ->
  difference (nth i v d) <= difference (nth j v d).
Proof.
  induction 1 as [|x l Hs IH Hx]; intros d i j Hij Hj; simpl in Hj.
  - lia.
  - destruct j as [|j].
    + assert (i = 0%nat) by lia. subst. lia.
    + destruct i as [|i]; simpl.
      * rewrite List.Forall_forall in Hx.
        apply (Hx (nth j l d)). apply nth_In. lia.
      * apply IH; lia.
Qed.

(** ** The binary search of [split] *)

Lemma upper_bound_loop_left comp v :
  forall fuel first len,
  (forall i, (first <= i < first + len)%nat ->
             comp (nth i v (mkIntIndex 0 0)) = true) ->
  upper_bound_loop fuel comp v first len = first.
Proof.
  induction fuel as [|fuel IH]; intros first len H;
    cbn [upper_bound_loop]; [reflexivity|].
  destruct (len =? 0)%nat eqn:E; [reflexivity|].
  apply Nat.eqb_neq in E.
  assert (Hh : (len / 2 < len)%nat) by (apply Nat.div_lt; lia).
  rewrite H by lia.
  apply IH. intros i Hi. apply H. lia.
Qed.

Lemma upper_bound_loop_right comp v :
  forall fuel first len, (len <= fuel)%nat ->
  (forall i, (first <= i < first + len)%nat ->
             comp (nth i v (mkIntIndex 0 0)) = false) ->
  upper_bound_loop fuel comp v first len = (first + len)%nat.
Proof.
  induction fuel as [|fuel IH]; intros first len Hf H; cbn [upper_bound_loop].
  - lia.
  - destruct (len =? 0)%nat eqn:E.
    + apply Nat.eqb_eq in E. lia.
    + apply Nat.eqb_neq in E.
      assert (Hh : (len / 2 < len)%nat) by (apply Nat.div_lt; lia).
      rewrite H by lia.
      rewrite IH; [lia | lia |].
      intros i Hi. apply H. lia.
Qed.

(** On a sorted sequence the search of [split] never stops inside: the
    middle element alone decides between the two ends. *)
Lemma upper_bound_sorted tr v :
  StronglySorted by_difference v ->
  upper_bound (split_comp tr) v =
    if split_comp tr (nth (length v / 2) v (mkIntIndex 0 0))
    then 0%nat else length v.
Proof.
  intros Hs. unfold upper_bound.
  destruct (length v) as [|n] eqn:En.
  - simpl. destruct (split_comp tr _); reflexivity.
  - rewrite <- En.
    assert (Hh : (length v / 2 < length v)%nat) by (apply Nat.div_lt; lia).
    rewrite En at 1. cbn [upper_bound_loop].
    destruct (length v =? 0)%nat eqn:E0; [apply Nat.eqb_eq in E0; lia|].
    cbn [Nat.add].
    destruct (split_comp tr (nth (length v / 2) v (mkIntIndex 0 0))) eqn:Em.
    + apply upper_bound_loop_left. intros i Hi.
      unfold split_comp in *. apply Z.ltb_lt in Em. apply Z.ltb_lt.
      pose proof (sorted_nth v Hs (mkIntIndex 0 0) i (length v / 2)%nat).
      lia.
    + rewrite upper_bound_loop_right; [lia | lia |].
      intros i Hi.
      unfold split_comp in *. apply Z.ltb_ge in Em. apply Z.ltb_ge.
      pose proof (sorted_nth v Hs (mkIntIndex 0 0) (length v / 2)%nat i).
      lia.
Qed.

(** ** Pushing patches *)

Lemma push_back_all_app data vs :
  forall part part',
  push_back_all data part vs = Ok part' ->
  exists m, part' = part ++ m /\ length m = length vs.
Proof.
  induction vs as [|v vs IH]; intros part part' H; cbn [push_back_all] in H.
  - inversion H; subst. exists []. split; [symmetry; apply app_nil_r | reflexivity].
  - destruct (data !! index v) as [p|] eqn:E; [|discriminate].
    destruct (IH _ _ H) as (m & -> & Hm).
    exists (p :: m). split.
    + rewrite <- app_assoc. reflexivity.
    + simpl. congruence.
Qed.

Lemma push_back_all_total data vs :
  List.Forall (fun v => (index v < length data)%nat) vs ->
  forall part, exists part', push_back_all data part vs = Ok part'.
Proof.
  induction 1 as [|v vs Hv Hvs IH]; intros part; cbn [push_back_all].
  - eexists; reflexivity.
  - destruct (lookup_lt_is_Some_2 data (index v) Hv) as [p ->].
    apply IH.
Qed.

Lemma split_total data tr vs partA partB :
  List.Forall (fun v => (index v < length data)%nat) vs ->
  exists a b, split data tr vs partA partB = Ok (a, b).
Proof.
  intros H. unfold split.
  assert (Hl : List.Forall (fun v => (index v < length data)%nat)
                 (firstn (upper_bound (split_comp tr) vs) vs)).
  { apply Forall_take, H. }
  assert (Hr : List.Forall (fun v => (index v < length data)%nat)
                 (skipn (upper_bound (split_comp tr) vs) vs)).
  { apply Forall_drop, H. }
  destruct (push_back_all_total data _ Hl partA) as [a ->].
  destruct (push_back_all_total data _ Hr partB) as [b ->].
  simpl. eauto.
Qed.

(** On a sorted sequence [split] hands the whole sequence to one side. *)
Lemma split_sorted data tr vs partA partB a b :
  StronglySorted by_difference vs ->
  split data tr vs partA partB = Ok (a, b) ->
  if split_comp tr (nth (length vs / 2) vs (mkIntIndex 0 0))
  then a = partA /\ push_back_all data partB vs = Ok b
  else push_back_all data partA vs = Ok a /\ b = partB.
Proof.
  intros Hs H. unfold split in H.
  rewrite (upper_bound_sorted tr vs Hs) in H.
  destruct (split_comp tr _).
  - rewrite take_0, drop_0 in H. cbn [push_back_all bind] in H.
    destruct (push_back_all data partB vs) as [b'|]; simpl in H;
      inversion H; subst; auto.
  - rewrite firstn_all, skipn_all in H.
    destruct (push_back_all data partA vs) as [a'|]; simpl in H;
      inversion H; subst; auto.
Qed.

(** ** Test evaluation *)

Lemma evaluate_from_length data test : forall i,
  length (evaluate_from i data test) = length data.
Proof.
  induction data as [|p data IH]; intros i; simpl; [reflexivity|].
  rewrite IH. reflexivity.
Qed.

Lemma evaluate_from_index data test : forall i,
  List.Forall (fun v => (i <= index v < i + length data)%nat)
              (evaluate_from i data test).
Proof.
  induction data as [|p data IH]; intros i; simpl; constructor.
  - simpl. lia.
  - eapply List.Forall_impl; [|apply (IH (S i))].
    intros a Ha. simpl in Ha. lia.
Qed.

Lemma evaluateTest_length data test vs :
  length (evaluateTest data test vs) = (length vs + length data)%nat.
Proof.
  unfold evaluateTest.
  rewrite std_sort_length, length_app, evaluate_from_length. reflexivity.
Qed.

Lemma evaluateTest_index data test vs :
  List.Forall (fun v => (index v < length data)%nat) vs ->
  List.Forall (fun v => (index v < length data)%nat) (evaluateTest data test vs).
Proof.
  intros H. unfold evaluateTest. apply std_sort_Forall.
  apply List.Forall_app. split; [exact H|].
  eapply List.Forall_impl; [|apply (evaluate_from_index data test 0)].
  intros a Ha. simpl in Ha. lia.
Qed.

Lemma evaluateTest_sorted data test vs :
  StronglySorted by_difference (evaluateTest data test vs).
Proof. apply std_sort_sorted. Qed.

(** ** Split search *)

Section SplitSearchFacts.

Variable N_THRESHOLD_IT : nat.
Variable logdet : list (Q * Q) -> float.

Ltac threshold_cases H :=
  unfold threshold_body in H;
  destruct (uniform _ _ _) as [tr g];
  destruct (split _ _ _ _ _) as [[a b]|] eqn:Es; cbn [bind] in H;
  [|discriminate H];
  destruct (_ && _) eqn:Ene;
  [destruct (PrimFloat.ltb _ _) eqn:Egt|];
  inversion H; subst; clear H; cbn [valSet tmpA tmpB bestSplit ret test
                                    partA partB rng scored].

Lemma threshold_body_valSet data tmpTest vmin vmax st st' :
  threshold_body logdet data tmpTest vmin vmax st = Ok st' ->
  valSet st' = valSet st.
Proof. intros H. threshold_cases H; reflexivity. Qed.

Lemma threshold_body_score data tmpTest vmin vmax st st' :
  score_inv st ->
  threshold_body logdet data tmpTest vmin vmax st = Ok st' ->
  score_inv st'.
Proof.
  intros [Hr Hb] H. threshold_cases H; unfold score_inv;
    cbn [valSet tmpA tmpB bestSplit ret test partA partB rng scored existsb].
  - split; [|discriminate].
    destruct (ret st) eqn:Er.
    + rewrite <- Hr. symmetry. apply orb_true_r.
    + assert (E : beats_initial (measureInformationGain logdet data a b) = true)
        by (unfold beats_initial; rewrite <- (Hb eq_refl); exact Egt).
      rewrite E. reflexivity.
  - split; [|exact Hb].
    destruct (ret st) eqn:Er.
    + rewrite <- Hr. symmetry. apply orb_true_r.
    + assert (E : beats_initial (measureInformationGain logdet data a b) = false)
        by (unfold beats_initial; rewrite <- (Hb eq_refl); exact Egt).
      rewrite E. exact Hr.
  - split; assumption.
Qed.

Lemma threshold_body_total data tmpTest vmin vmax st :
  indexed data st ->
  exists st', threshold_body logdet data tmpTest vmin vmax st = Ok st'.
Proof.
  intros Hi. unfold threshold_body.
  destruct (uniform vmin vmax (rng st)) as [tr g].
  destruct (split_total data tr (valSet st) (tmpA st) (tmpB st) Hi)
    as (a & b & ->).
  cbn [bind].
  destruct (_ && _); [destruct (PrimFloat.ltb _ _)|]; eexists; reflexivity.
Qed.

Lemma threshold_body_parts data tmpTest vmin vmax st st' :
  StronglySorted by_difference (valSet st) ->
  (length data <= length (valSet st))%nat ->
  parts_inv (length data) st ->
  threshold_body logdet data tmpTest vmin vmax st = Ok st' ->
  parts_inv (length data) st'.
Proof.
  intros Hs Hl (HA & HB & HR) H.
  assert (Hw : forall tr a b,
             split data tr (valSet st) (tmpA st) (tmpB st) = Ok (a, b) ->
             whole (length data) a /\ whole (length data) b).
  { intros tr a b Es. pose proof (split_sorted _ _ _ _ _ _ _ Hs Es) as Hc.
    destruct (split_comp tr _).
    - destruct Hc as [-> Hp]. split; [exact HA|].
      destruct (push_back_all_app _ _ _ _ Hp) as (m & -> & Hm).
      right. rewrite length_app. lia.
    - destruct Hc as [Hp ->]. split; [|exact HB].
      destruct (push_back_all_app _ _ _ _ Hp) as (m & -> & Hm).
      right. rewrite length_app. lia. }
  threshold_cases H; destruct (Hw _ _ _ Es) as [Wa Wb];
    unfold parts_inv;
    cbn [valSet tmpA tmpB bestSplit ret test partA partB rng scored];
    repeat split; try assumption; try (apply HR; assumption).
  - apply andb_prop in Ene. destruct Ene as [Ea _].
    apply Nat.ltb_lt in Ea. destruct Wa; lia.
  - apply andb_prop in Ene. destruct Ene as [_ Eb].
    apply Nat.ltb_lt in Eb. destruct Wb; lia.
Qed.

Lemma threshold_loop_inv (I : OptState -> Prop) data tmpTest vmin vmax :
  (forall st st', I st ->
     threshold_body logdet data tmpTest vmin vmax st = Ok st' -> I st') ->
  forall n st st', I st ->
  threshold_loop logdet n data tmpTest vmin vmax st = Ok st' -> I st'.
Proof.
  intros Hstep. induction n as [|n IH]; intros st st' Hi H; simpl in H.
  - inversion H; subst. exact Hi.
  - destruct (threshold_body logdet data tmpTest vmin vmax st) as [st1|] eqn:E;
      cbn [bind] in H; [|discriminate].
    eapply IH; [|exact H]. eapply Hstep; eassumption.
Qed.

Lemma threshold_loop_valSet data tmpTest vmin vmax n : forall st st',
  threshold_loop logdet n data tmpTest vmin vmax st = Ok st' ->
  valSet st' = valSet st.
Proof.
  intros st st' H.
  apply (threshold_loop_inv (fun s => valSet s = valSet st)
           data tmpTest vmin vmax) with (n := n) (st := st);
    [|reflexivity|exact H].
  intros s s' Hs Hb. rewrite <- Hs. eapply threshold_body_valSet, Hb.
Qed.

Lemma threshold_loop_total data tmpTest vmin vmax n : forall st,
  indexed data st ->
  exists st', threshold_loop logdet n data tmpTest vmin vmax st = Ok st'.
Proof.
  induction n as [|n IH]; intros st Hi; simpl.
  - eexists; reflexivity.
  - destruct (threshold_body_total data tmpTest vmin vmax st Hi) as [st1 E].
    rewrite E. cbn [bind]. apply IH.
    unfold indexed. rewrite (threshold_body_valSet _ _ _ _ _ _ E). exact Hi.
Qed.

(** The state an outer pass hands to its threshold loop. *)
Lemma outer_body_cases data width height st st' :
  outer_body N_THRESHOLD_IT logdet data width height st = Ok st' ->
  exists tmpTest g,
    let st1 := mkOpt (evaluateTest data tmpTest (valSet st)) (tmpA st)
                     (tmpB st) (bestSplit st) (ret st) (test st) (partA st)
                     (partB st) g (scored st) in
    st' = st1 \/
    exists vmin vmax,
      threshold_loop logdet N_THRESHOLD_IT data tmpTest vmin vmax st1 = Ok st'.
Proof.
  unfold outer_body. intros H.
  destruct (generateTest width height (rng st)) as [tmpTest g].
  exists tmpTest, g. cbv zeta.
  destruct (evaluateTest data tmpTest (valSet st)) as [|front rest] eqn:Ev;
    [discriminate|].
  destruct (_ >? 0).
  - right. eauto.
  - left. inversion H; reflexivity.
Qed.

Lemma outer_body_valSet data width height st st' :
  outer_body N_THRESHOLD_IT logdet data width height st = Ok st' ->
  exists tmpTest, valSet st' = evaluateTest data tmpTest (valSet st).
Proof.
  intros H. destruct (outer_body_cases _ _ _ _ _ H) as (tmpTest & g & Hc).
  exists tmpTest. cbv zeta in Hc. destruct Hc as [-> | (vmin & vmax & Hl)].
  - reflexivity.
  - rewrite (threshold_loop_valSet _ _ _ _ _ _ _ Hl). reflexivity.
Qed.

Lemma outer_body_score data width height st st' :
  score_inv st ->
  outer_body N_THRESHOLD_IT logdet data width height st = Ok st' ->
  score_inv st'.
Proof.
  intros Hi H. destruct (outer_body_cases _ _ _ _ _ H) as (tmpTest & g & Hc).
  cbv zeta in Hc. destruct Hc as [-> | (vmin & vmax & Hl)].
  - exact Hi.
  - refine (threshold_loop_inv score_inv data tmpTest vmin vmax _ _ _ _ _ Hl);
      [|exact Hi].
    intros s s'. apply threshold_body_score.
Qed.

Lemma outer_body_indexed data width height st st' :
  indexed data st ->
  outer_body N_THRESHOLD_IT logdet data width height st = Ok st' ->
  indexed data st'.
Proof.
  intros Hi H. destruct (outer_body_valSet _ _ _ _ _ H) as [tmpTest E].
  unfold indexed. rewrite E. apply evaluateTest_index, Hi.
Qed.

Lemma outer_body_parts data width height st st' :
  parts_inv (length data) st ->
  outer_body N_THRESHOLD_IT logdet data width height st = Ok st' ->
  parts_inv (length data) st'.
Proof.
  intros Hi H. destruct (outer_body_cases _ _ _ _ _ H) as (tmpTest & g & Hc).
  cbv zeta in Hc. destruct Hc as [-> | (vmin & vmax & Hl)].
  - exact Hi.
  - set (vs := evaluateTest data tmpTest (valSet st)) in *.
    apply (threshold_loop_inv
             (fun s => valSet s = vs /\ parts_inv (length data) s)
             data tmpTest vmin vmax) in Hl.
    + apply Hl.
    + intros s s' [Hv Hp] Hb. split.
      * rewrite (threshold_body_valSet _ _ _ _ _ _ Hb). exact Hv.
      * eapply threshold_body_parts; [| |exact Hp|exact Hb]; rewrite Hv.
        -- apply evaluateTest_sorted.
        -- unfold vs. rewrite evaluateTest_length. lia.
    + split; [reflexivity|exact Hi].
Qed.

Lemma outer_body_total data width height st :
  data <> [] -> indexed data st ->
  exists st', outer_body N_THRESHOLD_IT logdet data width height st = Ok st'.
Proof.
  intros Hne Hi. unfold outer_body.
  destruct (generateTest width height (rng st)) as [tmpTest g].
  pose proof (evaluateTest_length data tmpTest (valSet st)) as Hl.
  pose proof (evaluateTest_index data tmpTest (valSet st) Hi) as Hx.
  destruct (evaluateTest data tmpTest (valSet st)) as [|front rest] eqn:Ev.
  - destruct data; [congruence | simpl in Hl; lia].
  - destruct (_ >? 0).
    + apply threshold_loop_total. exact Hx.
    + eexists; reflexivity.
Qed.

Lemma outer_loop_inv (I : OptState -> Prop) data width height :
  (forall st st', I st ->
     outer_body N_THRESHOLD_IT logdet data width height st = Ok st' -> I st') ->
  forall n st st', I st ->
  outer_loop N_THRESHOLD_IT logdet n data width height st = Ok st' -> I st'.
Proof.
  intros Hstep. induction n as [|n IH]; intros st st' Hi H; simpl in H.
  - inversion H; subst. exact Hi.
  - destruct (outer_body N_THRESHOLD_IT logdet data width height st)
      as [st1|] eqn:E; cbn [bind] in H; [|discriminate].
    eapply IH; [|exact H]. eapply Hstep; eassumption.
Qed.

Lemma outer_loop_total data width height n : forall st,
  data <> [] -> indexed data st ->
  exists st', outer_loop N_THRESHOLD_IT logdet n data width height st = Ok st'.
Proof.
  induction n as [|n IH]; intros st Hne Hi; simpl.
  - eexists; reflexivity.
  - destruct (outer_body_total data width height st Hne Hi) as [st1 E].
    rewrite E. cbn [bind]. apply IH; [exact Hne|].
    eapply outer_body_indexed; eassumption.
Qed.

(** Split search returns on every non-empty working set. *)
Lemma optimizeTest_total partA0 partB0 data iter test0 g :
  data <> [] ->
  exists st,
    optimizeTest N_THRESHOLD_IT logdet partA0 partB0 data iter test0 g = Ok st.
Proof.
  intros Hne. unfold optimizeTest. destruct data as [|d0 data']; [congruence|].
  apply outer_loop_total; [exact Hne | constructor].
Qed.

End SplitSearchFacts.

(** ** Claims on split search *)

(** C4 (the code departs from it).  The claim: [split] puts exactly the
    patches with difference <= tr into partA and those with difference > tr
    into partB.  What the code does on every sorted sequence: the comparator
    handed to [std::upper_bound] is [a.difference < threshold], so the search
    ends at one end of the sequence, and the whole sequence goes to partB
    (when the middle difference is below tr) or to partA (otherwise). *)
Theorem split_hands_all_to_one_side data tr vs a b :
  StronglySorted by_difference vs ->
  split data tr vs [] [] = Ok (a, b) ->
  if difference (nth (length vs / 2) vs (mkIntIndex 0 0)) <? tr
  then a = [] /\ length b = length vs
  else length a = length vs /\ b = [].
Proof.
  intros Hs H. pose proof (split_sorted _ _ _ _ _ _ _ Hs H) as Hc.
  unfold split_comp in Hc.
  destruct (difference (nth (length vs / 2) vs (mkIntIndex 0 0)) <? tr).
  - destruct Hc as [-> Hp]. split; [reflexivity|].
    destruct (push_back_all_app _ _ _ _ Hp) as (m & -> & Hm). exact Hm.
  - destruct Hc as [Hp ->]. split; [|reflexivity].
    destruct (push_back_all_app _ _ _ _ Hp) as (m & -> & Hm). exact Hm.
Qed.

(** Differences 1 and 3 with threshold 1: both patches land in partA. *)
Lemma split_hands_all_to_one_side_witness :
  split two_patches 1 two_diffs [] [] = Ok (two_patches, []) /\
  (if difference (nth (length two_diffs / 2) two_diffs (mkIntIndex 0 0)) <? 1
   then two_patches = [] /\ length (@nil ImagePatch) = length two_diffs
   else length two_patches = length two_diffs /\ @nil ImagePatch = []).
Proof.
  split; [reflexivity|].
  apply (split_hands_all_to_one_side two_patches 1 two_diffs two_patches []).
  - repeat constructor; unfold by_difference; simpl; lia.
  - reflexivity.
Defined.

(** C6 (the code departs from it).  The claim: every call of the test
    evaluator yields exactly |trainingSet| entries, also on later outer
    iterations.  What the code does: [evaluateTest] pushes onto a [valSet]
    that [optimizeTest] never clears, so after n outer passes the vector
    holds n * |data| more entries than it started with. *)
Theorem valSet_grows_every_pass N_THRESHOLD_IT logdet n data width height :
  forall st st',
  outer_loop N_THRESHOLD_IT logdet n data width height st = Ok st' ->
  length (valSet st') = (length (valSet st) + n * length data)%nat.
Proof.
  induction n as [|n IH]; intros st st' H; simpl in H.
  - inversion H; subst. lia.
  - destruct (outer_body N_THRESHOLD_IT logdet data width height st)
      as [st1|] eqn:E; cbn [bind] in H; [|discriminate].
    rewrite (IH _ _ H).
    destruct (outer_body_valSet _ _ _ _ _ _ _ E) as [tmpTest ->].
    rewrite evaluateTest_length. lia.
Qed.

(** Two outer passes over four patches leave eight entries. *)
Lemma valSet_grows_every_pass_witness :
  exists st',
    outer_loop 1 (logdet_cases nan) 2 patches4 2 1 (opt_init (mkRNG seed01 0))
      = Ok st' /\
    length (valSet st') = (0 + 2 * 4)%nat.
Proof.
  destruct (outer_loop 1 (logdet_cases nan) 2 patches4 2 1
              (opt_init (mkRNG seed01 0))) as [st'|f] eqn:E.
  - exists st'. split; [reflexivity|].
    exact (valSet_grows_every_pass 1 (logdet_cases nan) 2 patches4 2 1 _ _ E).
  - exfalso. vm_compute in E. discriminate E.
Defined.

(** C5 (the code departs from it).  The claim: on success partA and partB
    are disjoint, non-empty, and together make up the parent.  What the code
    does: on success both parts are non-empty, but each holds at least
    |data| patches, because every call of [split] appends the whole sorted
    sequence to one of two temporaries that are never cleared; their union
    is never a rearrangement of the parent. *)
Theorem success_parts_exceed_parent
  N_THRESHOLD_IT logdet partA0 partB0 data iter test0 g st :
  optimizeTest N_THRESHOLD_IT logdet partA0 partB0 data iter test0 g = Ok st ->
  ret st = true ->
  partA st <> [] /\ partB st <> [] /\
  (length data <= length (partA st))%nat /\
  (length data <= length (partB st))%nat /\
  ~ Permutation (partA st ++ partB st) data.
Proof.
  intros H Hr. unfold optimizeTest in H.
  destruct data as [|d0 data']; [discriminate|].
  set (data := d0 :: data') in *.
  apply (outer_loop_inv N_THRESHOLD_IT logdet (parts_inv (length data))) in H.
  - destruct H as (_ & _ & HR). destruct (HR Hr) as [Ha Hb].
    assert (Hn : (0 < length data)%nat) by (simpl; lia).
    repeat split; try assumption.
    + intros E. rewrite E in Ha. simpl in Ha. lia.
    + intros E. rewrite E in Hb. simpl in Hb. lia.
    + intros P. apply Permutation_length in P.
      rewrite length_app in P. lia.
  - intros s s'. apply outer_body_parts.
  - unfold parts_inv, whole. simpl. repeat split; auto; discriminate.
Qed.

(** When the code reports success: split search returns on every non-empty
    working set, and [ret] is true exactly when some candidate that reached
    the score compared strictly above the initial best, -DBL_MAX. *)
Lemma success_iff_score_beats_initial
  N_THRESHOLD_IT logdet partA0 partB0 data iter test0 g :
  data <> [] ->
  exists st,
    optimizeTest N_THRESHOLD_IT logdet partA0 partB0 data iter test0 g = Ok st /\
    (ret st = true <->
     exists s, In s (scored st) /\ PrimFloat.ltb (- DBL_MAX) s = true).
Proof.
  intros Hne.
  destruct (optimizeTest_total N_THRESHOLD_IT logdet partA0 partB0 data iter
              test0 g Hne) as [st H].
  exists st. split; [exact H|].
  unfold optimizeTest in H. destruct data as [|d0 data']; [discriminate|].
  apply (outer_loop_inv N_THRESHOLD_IT logdet score_inv) in H.
  - destruct H as [Hr _]. rewrite Hr. apply existsb_exists.
  - intros s s'. apply outer_body_score.
  - split; reflexivity.
Qed.

(** On the four patches the search succeeds with eight patches in partA and
    four in partB; the first patch of the parent is in both. *)
Lemma success_parts_exceed_parent_witness :
  exists st,
    optimizeTest 1 (logdet_cases nan) [] [] patches4 4 test_uninit
                 (mkRNG seed01 0) = Ok st /\
    ret st = true /\
    (length (partA st) = 8 /\ length (partB st) = 4)%nat /\
    (In (px 1 0 1 1) (partA st) /\ In (px 1 0 1 1) (partB st)) /\
    (partA st <> [] /\ partB st <> [] /\
     (length patches4 <= length (partA st))%nat /\
     (length patches4 <= length (partB st))%nat /\
     ~ Permutation (partA st ++ partB st) patches4).
Proof.
  destruct (optimizeTest 1 (logdet_cases nan) [] [] patches4 4 test_uninit
              (mkRNG seed01 0)) as [st|f] eqn:E.
  - exists st. split; [reflexivity|].
    vm_compute in E. inversion E; subst st; clear E.
    split; [reflexivity|]. split; [split; reflexivity|].
    split; [split; simpl; tauto|].
    apply (success_parts_exceed_parent 1 (logdet_cases nan) [] [] patches4 4
             test_uninit (mkRNG seed01 0)).
    + vm_compute. reflexivity.
    + reflexivity.
  - exfalso. vm_compute in E. discriminate E.
Defined.

(** C8 (the code departs from it).  The claim: split search fails only when
    no candidate was accepted for scoring, and succeeds whenever a
    non-degenerate test yields a threshold with two non-empty partitions.
    What the code does: [ret] is set only under [score > bestSplit], so a
    candidate whose score is NaN or -inf is scored and then dropped.  With
    one common target for all four patches every covariance determinant is
    0, its logarithm is -inf and each score is -inf + inf = NaN: splits with
    both sets non-empty are created and scored, the score of the last one
    does not compare above -DBL_MAX, and the search reports failure. *)
Theorem scored_candidates_yet_failure :
  exists st,
    optimizeTest 1 (logdet_cases nan) [] [] patches4_flat 4 test_uninit
                 (mkRNG seed01 0) = Ok st /\
    ret st = false /\ scored st <> [] /\
    tmpA st <> [] /\ tmpB st <> [] /\
    PrimFloat.ltb (- DBL_MAX)
      (measureInformationGain (logdet_cases nan) patches4_flat
                              (tmpA st) (tmpB st)) = false.
Proof.
  eexists. split; [vm_compute; reflexivity|].
  cbn [ret scored tmpA tmpB].
  split; [reflexivity|]. split; [discriminate|].
  split; [discriminate|]. split; [discriminate|].
  vm_compute. reflexivity.
Qed.

(** C7 (the code departs from it).  The claim: the child weights are the
    exact ratios |part| / |parent|.  What the code does: the quotient is
    taken between two [size_t] before the conversion to [double], so a child
    smaller than its parent weighs 0 and its term drops out of the score. *)
Theorem weight_of_smaller_child_is_zero logdet parent partA partB :
  (length partA < length parent)%nat ->
  (length partB < length parent)%nat ->
  weight partA parent = 0%float /\
  weight partB parent = 0%float /\
  measureInformationGain logdet parent partA partB =
    (logdet (samples_of parent)
     - 0 * logdet (samples_of partB)
     - 0 * logdet (samples_of partA))%float.
Proof.
  intros Ha Hb. unfold measureInformationGain, weight.
  rewrite (Nat.div_small _ _ Ha), (Nat.div_small _ _ Hb).
  repeat split; reflexivity.
Qed.

(** A parent of two patches and its two halves: both weights are 0, not
    1/2. *)
Lemma weight_of_smaller_child_is_zero_witness :
  weight [px 1 0 0 0] two_patches = 0%float /\
  weight [px 3 0 0 0] two_patches = 0%float /\
  measureInformationGain (logdet_cases nan) two_patches
                         [px 1 0 0 0] [px 3 0 0 0] =
    (logdet_cases nan (samples_of two_patches)
     - 0 * logdet_cases nan (samples_of [px 3 0 0 0])
     - 0 * logdet_cases nan (samples_of [px 1 0 0 0]))%float.
Proof.
  apply (weight_of_smaller_child_is_zero (logdet_cases nan) two_patches
           [px 1 0 0 0] [px 3 0 0 0]); simpl; lia.
Defined.

(** ** Claims on tree storage and induction *)

(** C9 (the code departs from it).  The claim: [makeLeaf] takes [numLeaves]
    as the leaf index, writes it at the node, increments [numLeaves], and
    stores the leaf's statistics, at least the count of patches.  What the
    code does: the first three; the leaf array is left as it was and the
    working set is never read. *)
Theorem makeLeaf_stores_index_only data node t :
  0 <= node * 7 < Z.of_nat (length (treetable t)) ->
  exists t',
    makeLeaf data node t = Ok t' /\
    treetable t' !! Z.to_nat (node * 7) = Some (numLeaves t) /\
    numLeaves t' = numLeaves t + 1 /\
    leaf t' = leaf t /\
    makeLeaf [] node t = Ok t'.
Proof.
  intros Hn. unfold makeLeaf, table_write.
  assert (E : (0 <=? node * 7) && (node * 7 <? Z.of_nat (length (treetable t)))
              = true).
  { apply andb_true_intro. split; [apply Z.leb_le | apply Z.ltb_lt]; lia. }
  rewrite E. cbn [bind]. eexists. split; [reflexivity|].
  cbn [treetable numLeaves leaf]. repeat split.
  apply list_lookup_insert_eq. lia.
Qed.

(** Four patches reach the root leaf of a fresh tree; every leaf record is
    still blank, its count 0. *)
Lemma makeLeaf_stores_index_only_witness :
  exists t',
    makeLeaf patches4 0 (CRTree_new 0 1) = Ok t' /\
    treetable t' !! Z.to_nat (0 * 7) = Some (numLeaves (CRTree_new 0 1)) /\
    numLeaves t' = numLeaves (CRTree_new 0 1) + 1 /\
    leaf t' = leaf (CRTree_new 0 1) /\
    makeLeaf [] 0 (CRTree_new 0 1) = Ok t'.
Proof.
  apply (makeLeaf_stores_index_only patches4 0 (CRTree_new 0 1)).
  vm_compute. split; [discriminate | reflexivity].
Defined.

(** C10.  Split search reads [data[0]] before anything else, so it faults on
    an empty working set whatever its other arguments are, and returns on
    every non-empty one.  [growTree] on an empty training set meets that
    fault exactly when the depth test of [grow] sends the root to split
    search; when the test diverts the root, the run is the single call of
    [makeLeaf] and split search is not entered. *)
Theorem split_search_needs_first_patch N_THRESHOLD_IT logdet :
  (forall partA0 partB0 iter test0 g,
     optimizeTest N_THRESHOLD_IT logdet partA0 partB0 [] iter test0 g
       = Fault EmptyRead) /\
  (forall partA0 partB0 data iter test0 g,
     optimizeTest N_THRESHOLD_IT logdet partA0 partB0 data iter test0 g
       = Fault EmptyRead <-> data = []) /\
  (forall fuel seeded t,
     growTree N_THRESHOLD_IT logdet (S fuel) [] seeded t =
       let w := mkWorld t (mkRNG seeded 0) [(0, 0)] in
       if 0 <? maxDepth t
       then on_tree w (makeLeaf [] 0 t)
       else (w, Some EmptyRead)).
Proof.
  split; [reflexivity|]. split.
  - intros partA0 partB0 data iter test0 g. split.
    + intros H. destruct data as [|d0 data']; [reflexivity|].
      destruct (optimizeTest_total N_THRESHOLD_IT logdet partA0 partB0
                  (d0 :: data') iter test0 g) as [st E]; [discriminate|].
      rewrite E in H. discriminate H.
    + intros ->. reflexivity.
  - intros fuel seeded t. unfold growTree. cbn [grow tree calls source app].
    destruct (0 <? maxDepth t); reflexivity.
Qed.

(** C1 (the code departs from it).  The claim: a node met at a depth >=
    maxDepth becomes a leaf, so maxDepth = 0 yields a single leaf.  What the
    code does: [grow] makes the leaf when depth < maxDepth and runs split
    search otherwise.  With maxDepth = 0 the four patches are split at the
    root: slot 0 of the table holds the marker -1 and no leaf was counted
    when the run stops.  This holds for every N_THRESHOLD_IT from 1 to 10
    and whatever [logdet] is off its two exact cases. *)
Theorem root_at_depth_limit_is_split (other : float) :
  List.Forall
    (fun N_THRESHOLD_IT =>
       let o := growTree N_THRESHOLD_IT (logdet_cases other) 2 patches4 seed01
                         (CRTree_new 100 0) in
       table_of o !! 0%nat = Some (-1) /\ leaves_of o = 0)
    (seq 1 10).
Proof.
  cbv [seq].
  repeat (apply List.Forall_cons; [vm_compute; split; reflexivity|]).
  apply List.Forall_nil.
Qed.

(** C2 (the code departs from it).  The claim: no call of [grow] has a depth
    above maxDepth.  What the code does, by the same inverted depth test:
    with maxDepth = 0 and minSamples = 0 the root is split and [grow] is
    called on node 1 at depth 1. *)
Theorem grow_called_below_depth_limit (other : float) :
  List.Forall
    (fun N_THRESHOLD_IT =>
       let t := CRTree_new 0 0 in
       let o := growTree N_THRESHOLD_IT (logdet_cases other) 2 patches4 seed01
                         t in
       maxDepth t = 0 /\ calls_of o = [(0, 0); (1, 1)])
    (seq 1 10).
Proof.
  cbv [seq].
  repeat (apply List.Forall_cons; [vm_compute; split; reflexivity|]).
  apply List.Forall_nil.
Qed.

(** C3 (the code departs from it).  The claim: every write to the node table
    has its node index in [0, numNodes).  What the code does, by the same
    inverted depth test: with maxDepth = 0 the table has one node (7 ints);
    the root is split and [makeLeaf] writes node 1, at offset 7, past the
    end. *)
Theorem leaf_written_past_the_table (other : float) :
  List.Forall
    (fun N_THRESHOLD_IT =>
       let t := CRTree_new 100 0 in
       let o := growTree N_THRESHOLD_IT (logdet_cases other) 2 patches4 seed01
                         t in
       numNodes t = 1 /\ length (treetable t) = 7%nat /\
       fault_of o = Some (TableOutOfBounds 7))
    (seq 1 10).
Proof.
  cbv [seq].
  repeat (apply List.Forall_cons; [vm_compute; repeat split; reflexivity|]).
  apply List.Forall_nil.
Qed.

(** * Further properties of the code *)

(** ** Test generation *)

Lemma uniform_range a b g :
  a < b ->
  a <= fst (uniform a b g) < b /\
  draws (snd (uniform a b g)) = draws g /\
  pos (snd (uniform a b g)) = S (pos g).
Proof.
  intros Hab. unfold uniform.
  destruct (a =? b) eqn:E; [apply Z.eqb_eq in E; lia|].
  cbn [rng_next fst snd draws pos].
  pose proof (Z.mod_pos_bound (draws g (pos g)) (b - a)).
  split; [lia|]. split; reflexivity.
Qed.

Lemma generateTest_shape width height g :
  0 < width -> 0 < height ->
  exists t0 t1 t2 t3 g',
    generateTest width height g = ([t0; t1; t2; t3; 0; 0], g') /\
    0 <= t0 < width /\ 0 <= t1 < height /\
    0 <= t2 < width /\ 0 <= t3 < height /\
    draws g' = draws g /\ pos g' = (pos g + 4)%nat.
Proof.
  intros Hw Hh. unfold generateTest.
  pose proof (uniform_range 0 width g Hw) as H0.
  destruct (uniform 0 width g) as [t0 g0]. cbn [fst snd] in H0.
  pose proof (uniform_range 0 height g0 Hh) as H1.
  destruct (uniform 0 height g0) as [t1 g1]. cbn [fst snd] in H1.
  pose proof (uniform_range 0 width g1 Hw) as H2.
  destruct (uniform 0 width g1) as [t2 g2]. cbn [fst snd] in H2.
  pose proof (uniform_range 0 height g2 Hh) as H3.
  destruct (uniform 0 height g2) as [t3 g3]. cbn [fst snd] in H3.
  exists t0, t1, t2, t3, g3.
  destruct H0 as (? & E0 & P0), H1 as (? & E1 & P1),
           H2 as (? & E2 & P2), H3 as (? & E3 & P3).
  repeat split; try lia; congruence.
Qed.

(** X1.  For a patch of positive width and height, [generateTest] fills the
    first four slots with two pixel positions inside the patch (columns in
    [0, width), rows in [0, height)), returns an array of six ints, and takes
    exactly four draws from the random source. *)
Theorem generateTest_inside_patch width height g :
  0 < width -> 0 < height ->
  length (fst (generateTest width height g)) = 6%nat /\
  inside_patch width height (fst (generateTest width height g)) /\
  draws (snd (generateTest width height g)) = draws g /\
  pos (snd (generateTest width height g)) = (pos g + 4)%nat.
Proof.
  intros Hw Hh.
  destruct (generateTest_shape width height g Hw Hh)
    as (t0 & t1 & t2 & t3 & g' & -> & H0 & H1 & H2 & H3 & Hd & Hp).
  cbn [fst snd]. unfold inside_patch, test_at. cbn [nth length].
  repeat split; try assumption; lia.
Qed.

Lemma generateTest_inside_patch_witness :
  length (fst (generateTest 2 1 (mkRNG seed01 0))) = 6%nat /\
  inside_patch 2 1 (fst (generateTest 2 1 (mkRNG seed01 0))) /\
  draws (snd (generateTest 2 1 (mkRNG seed01 0))) = draws (mkRNG seed01 0) /\
  pos (snd (generateTest 2 1 (mkRNG seed01 0))) = (pos (mkRNG seed01 0) + 4)%nat.
Proof.
  apply (generateTest_inside_patch 2 1 (mkRNG seed01 0)); lia.
Defined.

(** ** The binary search *)

Lemma upper_bound_loop_point comp v k :
  (forall i, (i < k)%nat -> comp (nth i v (mkIntIndex 0 0)) = false) ->
  (forall i, (k <= i < length v)%nat ->
             comp (nth i v (mkIntIndex 0 0)) = true) ->
  forall fuel first len,
  (len <= fuel)%nat -> (first <= k <= first + len)%nat ->
  (first + len <= length v)%nat ->
  upper_bound_loop fuel comp v first len = k.
Proof.
  intros Hlo Hhi. induction fuel as [|fuel IH]; intros first len Hf Hk Hv;
    cbn [upper_bound_loop].
  - lia.
  - destruct (len =? 0)%nat eqn:E.
    + apply Nat.eqb_eq in E. lia.
    + apply Nat.eqb_neq in E.
      assert (Hh : (len / 2 < len)%nat) by (apply Nat.div_lt; lia).
      destruct (comp (nth (first + len / 2) v (mkIntIndex 0 0))) eqn:Ec.
      * apply IH; try lia.
        destruct (Nat.le_gt_cases k (first + len / 2)) as [Hle|Hgt]; [lia|].
        rewrite Hlo in Ec by lia. discriminate.
      * apply IH; try lia.
        destruct (Nat.le_gt_cases k (first + len / 2)) as [Hle|Hgt]; [|lia].
        rewrite Hhi in Ec by lia. discriminate.
Qed.

Lemma upper_bound_loop_le comp v :
  forall fuel first len,
  (first <= upper_bound_loop fuel comp v first len <= first + len)%nat.
Proof.
  induction fuel as [|fuel IH]; intros first len; cbn [upper_bound_loop].
  - lia.
  - destruct (len =? 0)%nat eqn:E; [lia|].
    apply Nat.eqb_neq in E.
    assert (Hh : (len / 2 < len)%nat) by (apply Nat.div_lt; lia).
    destruct (comp _).
    + pose proof (IH first (len / 2)%nat). lia.
    + pose proof (IH (S (first + len / 2)) (len - len / 2 - 1)%nat). lia.
Qed.

(** X2.  The binary search behind [split]: when the comparator is false on
    the first [k] entries of the sequence and true on all later ones (the
    partition [std::upper_bound] expects), the search returns exactly [k],
    the position of the first entry on which the comparator holds. *)
Theorem upper_bound_finds_partition_point comp v k :
  (k <= length v)%nat ->
  (forall i, (i < k)%nat -> comp (nth i v (mkIntIndex 0 0)) = false) ->
  (forall i, (k <= i < length v)%nat ->
             comp (nth i v (mkIntIndex 0 0)) = true) ->
  upper_bound comp v = k.
Proof.
  intros Hk Hlo Hhi. unfold upper_bound.
  apply (upper_bound_loop_point comp v k Hlo Hhi); lia.
Qed.

(** With "greater than 3" as comparator, the search over 1, 3, 5, 7 stops at
    position 2. *)
Lemma upper_bound_finds_partition_point_witness :
  upper_bound (fun a => 3 <? difference a)
    [mkIntIndex 1 0; mkIntIndex 3 1; mkIntIndex 5 2; mkIntIndex 7 3] = 2%nat.
Proof.
  apply (upper_bound_finds_partition_point (fun a => 3 <? difference a)
           [mkIntIndex 1 0; mkIntIndex 3 1; mkIntIndex 5 2; mkIntIndex 7 3]
           2%nat).
  - simpl. lia.
  - intros i Hi. destruct i as [|[|i]]; [reflexivity | reflexivity | lia].
  - intros i Hi. simpl in Hi.
    destruct i as [|[|[|[|i]]]]; try lia; reflexivity.
Defined.

(** ** Splitting *)

Lemma push_back_all_points data vs : forall part part',
  push_back_all data part vs = Ok part' ->
  exists m, part' = part ++ m /\ Forall2 (points_at data) vs m.
Proof.
  induction vs as [|v vs IH]; intros part part' H; cbn [push_back_all] in H.
  - inversion H; subst. exists []. split; [symmetry; apply app_nil_r|].
    constructor.
  - destruct (data !! index v) as [p|] eqn:E; [|discriminate].
    destruct (IH _ _ H) as (m & -> & Hm).
    exists (p :: m). split; [rewrite <- app_assoc; reflexivity|].
    constructor; assumption.
Qed.


Lemma push_back_all_drawn data vs : forall part part',
  push_back_all data part vs = Ok part' ->
  exists m, part' = part ++ m /\ List.Forall (fun p => In p data) m.
Proof.
  intros part part' H.
  destruct (push_back_all_points _ _ _ _ H) as (m & -> & Hm).
  exists m. split; [reflexivity|].
  clear H. induction Hm as [|v p vs m Hv Hm IH]; constructor; [|exact IH].
  unfold points_at in Hv. apply list_elem_of_In.
  eapply list_elem_of_lookup_2, Hv.
Qed.

Lemma split_appends_in_order_lists data tr vs pa pb a b :
  split data tr vs pa pb = Ok (a, b) ->
  exists ma mb, a = pa ++ ma /\ b = pb ++ mb /\
    List.Forall (fun p => In p data) ma /\ List.Forall (fun p => In p data) mb.
Proof.
  unfold split. intros H.
  destruct (push_back_all data pa (take (upper_bound (split_comp tr) vs) vs))
    as [a'|] eqn:Ea; cbn [bind] in H; [|discriminate].
  destruct (push_back_all data pb (drop (upper_bound (split_comp tr) vs) vs))
    as [b'|] eqn:Eb; cbn [bind] in H; [|discriminate].
  inversion H; subst a' b'; clear H.
  destruct (push_back_all_drawn _ _ _ _ Ea) as (ma & -> & Ha).
  destruct (push_back_all_drawn _ _ _ _ Eb) as (mb & -> & Hb).
  exists ma, mb. auto.
Qed.

(** X3.  [split] only appends: what [partA] and [partB] held stays in front,
    untouched.  The patches appended to [partA], followed by those appended
    to [partB], are the patches the difference sequence points at, one per
    entry and in the order of the sequence; [partA] receives as many as the
    position the binary search returned. *)
Theorem split_appends_in_sequence_order data tr vs pa pb a b :
  split data tr vs pa pb = Ok (a, b) ->
  exists ma mb,
    a = pa ++ ma /\ b = pb ++ mb /\
    length ma = upper_bound (split_comp tr) vs /\
    (length ma + length mb = length vs)%nat /\
    Forall2 (points_at data) vs (ma ++ mb).
Proof.
  unfold split. intros H.
  set (c := upper_bound (split_comp tr) vs) in *.
  assert (Hc : (c <= length vs)%nat).
  { pose proof (upper_bound_loop_le (split_comp tr) vs (length vs) 0
                  (length vs)). unfold c, upper_bound. lia. }
  destruct (push_back_all data pa (take c vs)) as [a'|] eqn:Ea;
    cbn [bind] in H; [|discriminate].
  destruct (push_back_all data pb (drop c vs)) as [b'|] eqn:Eb;
    cbn [bind] in H; [|discriminate].
  inversion H; subst a' b'; clear H.
  destruct (push_back_all_points _ _ _ _ Ea) as (ma & -> & Ha).
  destruct (push_back_all_points _ _ _ _ Eb) as (mb & -> & Hb).
  exists ma, mb.
  pose proof (Forall2_length _ _ _ Ha) as La.
  pose proof (Forall2_length _ _ _ Hb) as Lb.
  rewrite length_take in La. rewrite length_drop in Lb.
  repeat split; try lia.
  rewrite <- (take_drop c vs). apply Forall2_app; assumption.
Qed.

Lemma split_appends_in_sequence_order_witness :
  exists ma mb,
    two_patches = [] ++ ma /\ @nil ImagePatch = [] ++ mb /\
    length ma = upper_bound (split_comp 1) two_diffs /\
    (length ma + length mb = length two_diffs)%nat /\
    Forall2 (points_at two_patches) two_diffs (ma ++ mb).
Proof.
  apply (split_appends_in_sequence_order two_patches 1 two_diffs [] []
           two_patches []).
  reflexivity.
Defined.


(** ** Test evaluation *)

Lemma sort_insert_perm v l : Permutation (sort_insert v l) (v :: l).
Proof.
  induction l as [|x l IH]; simpl; [reflexivity|].
  destruct (difference x <? difference v); [|reflexivity].
  rewrite IH. apply perm_swap.
Qed.

Lemma std_sort_perm l : Permutation (std_sort l) l.
Proof.
  induction l as [|v l IH]; simpl; [reflexivity|].
  rewrite sort_insert_perm. apply perm_skip, IH.
Qed.

Lemma evaluate_from_indices data test : forall i,
  map index (evaluate_from i data test) = seq i (length data).
Proof.
  induction data as [|p data IH]; intros i; simpl; [reflexivity|].
  rewrite IH. reflexivity.
Qed.

Lemma evaluate_from_differences data test : forall i,
  map difference (evaluate_from i data test) = map (test_difference test) data.
Proof.
  induction data as [|p data IH]; intros i; simpl; [reflexivity|].
  rewrite IH. reflexivity.
Qed.

(** X5.  [evaluateTest] drops nothing and adds one entry per patch: its
    result is a rearrangement of the entries it was handed followed by the
    new ones, and the new entries carry the positions 0, 1, ..., n-1 of the
    patches together with the difference of the two tested pixels of each
    patch.  Whatever the vector held before the call is still in it. *)
Theorem evaluateTest_keeps_old_entries data test vs :
  exists fresh,
    Permutation (evaluateTest data test vs) (vs ++ fresh) /\
    map index fresh = seq 0 (length data) /\
    map difference fresh = map (test_difference test) data.
Proof.
  exists (evaluate_from 0 data test). split; [apply std_sort_perm|].
  split; [apply evaluate_from_indices | apply evaluate_from_differences].
Qed.

(** ** Split search: what a call returns *)

Section SplitSearchReturns.

Variable N_THRESHOLD_IT : nat.
Variable logdet : list (Q * Q) -> float.

(** One pass of the threshold loop, read as a relation. *)
Lemma threshold_body_step data tmpTest vmin vmax st st' :
  threshold_body logdet data tmpTest vmin vmax st = Ok st' ->
  exists a b,
    split data (fst (uniform vmin vmax (rng st))) (valSet st) (tmpA st)
          (tmpB st) = Ok (a, b) /\
    tmpA st' = a /\ tmpB st' = b /\
    rng st' = snd (uniform vmin vmax (rng st)) /\
    ((ret st' = ret st /\ test st' = test st /\
      partA st' = partA st /\ partB st' = partB st) \/
     (ret st' = true /\
      test st' = firstn 5 tmpTest ++ [fst (uniform vmin vmax (rng st))] /\
      partA st' = a /\ partB st' = b)).
Proof.
  unfold threshold_body. intros H.
  destruct (uniform vmin vmax (rng st)) as [tr g]. cbn [fst snd].
  destruct (split data tr (valSet st) (tmpA st) (tmpB st)) as [[a b]|] eqn:Es;
    cbn [bind] in H; [|discriminate].
  exists a, b. split; [reflexivity|].
  destruct (_ && _); [destruct (PrimFloat.ltb _ _)|];
    inversion H; subst; clear H;
    cbn [valSet tmpA tmpB bestSplit ret test partA partB rng scored];
    repeat split; auto.
Qed.

(** One pass of the outer loop: the test comes from [generateTest]. *)
Lemma outer_body_step data width height st st' :
  outer_body N_THRESHOLD_IT logdet data width height st = Ok st' ->
  let tmpTest := fst (generateTest width height (rng st)) in
  let g := snd (generateTest width height (rng st)) in
  let st1 := mkOpt (evaluateTest data tmpTest (valSet st)) (tmpA st)
                   (tmpB st) (bestSplit st) (ret st) (test st) (partA st)
                   (partB st) g (scored st) in
  st' = st1 \/
  exists vmin vmax,
    threshold_loop logdet N_THRESHOLD_IT data tmpTest vmin vmax st1 = Ok st'.
Proof.
  unfold outer_body. intros H.
  destruct (generateTest width height (rng st)) as [tmpTest g].
  cbn [fst snd]. cbv zeta.
  destruct (evaluateTest data tmpTest (valSet st)) as [|front rest] eqn:Ev;
    [discriminate|].
  destruct (_ >? 0).
  - right. eauto.
  - left. inversion H; reflexivity.
Qed.

(** An invariant of the threshold loop under every test [generateTest] can
    produce, kept by the bookkeeping of the outer loop, is an invariant of
    split search. *)
Lemma optimizeTest_inv (I : OptState -> Prop) partA0 partB0 d0 rest iter
  test0 g st :
  (forall g0 vmin vmax s s',
     I s ->
     threshold_body logdet (d0 :: rest)
       (fst (generateTest (mat_width (patch d0)) (mat_height (patch d0)) g0))
       vmin vmax s = Ok s' ->
     I s') ->
  (forall s vs g', I s ->
     I (mkOpt vs (tmpA s) (tmpB s) (bestSplit s) (ret s) (test s) (partA s)
              (partB s) g' (scored s))) ->
  I (mkOpt [] [] [] (- DBL_MAX)%float false test0 partA0 partB0 g []) ->
  optimizeTest N_THRESHOLD_IT logdet partA0 partB0 (d0 :: rest) iter test0 g
    = Ok st ->
  I st.
Proof.
  intros Hbody Hkeep Hinit H. unfold optimizeTest in H.
  refine (outer_loop_inv N_THRESHOLD_IT logdet I _ _ _ _ _ _ _ _ H);
    [|exact Hinit].
  intros s s' Hs Hb. apply outer_body_step in Hb. cbv zeta in Hb.
  destruct Hb as [-> | (vmin & vmax & Hl)].
  - apply Hkeep, Hs.
  - refine (threshold_loop_inv logdet I _ _ _ _ _ _ _ _ _ Hl).
    + intros x x'. apply Hbody.
    + apply Hkeep, Hs.
Qed.

(** X6.  When split search reports failure it has not touched its
    out-parameters: [test], [partA] and [partB] are what the caller passed
    in. *)
Theorem failure_leaves_outputs_untouched partA0 partB0 data iter test0 g st :
  optimizeTest N_THRESHOLD_IT logdet partA0 partB0 data iter test0 g = Ok st ->
  ret st = false ->
  test st = test0 /\ partA st = partA0 /\ partB st = partB0.
Proof.
  intros H Hr. destruct data as [|d0 rest]; [discriminate|].
  refine (optimizeTest_inv
            (fun s => ret s = false ->
                      test s = test0 /\ partA s = partA0 /\ partB s = partB0)
            partA0 partB0 d0 rest iter test0 g st _ _ _ H Hr).
  - intros g0 vmin vmax s s' Hs Hb Hf.
    destruct (threshold_body_step _ _ _ _ _ _ Hb)
      as (a & b & _ & _ & _ & _ & [(Er & Et & Ea & Eb) | (Er & _)]).
    + rewrite Et, Ea, Eb. apply Hs. congruence.
    + congruence.
  - intros s vs g' Hs. exact Hs.
  - intros _. repeat split.
Qed.

(** X8.  Split search never hands back a patch that is not in its working
    set: when it reports success, every patch of [partA] and of [partB] is a
    patch of [data]. *)
Theorem success_parts_drawn_from_data partA0 partB0 data iter test0 g st :
  optimizeTest N_THRESHOLD_IT logdet partA0 partB0 data iter test0 g = Ok st ->
  ret st = true ->
  drawn_from data (partA st) /\ drawn_from data (partB st).
Proof.
  intros H Hr. destruct data as [|d0 rest]; [discriminate|].
  set (data := d0 :: rest) in *.
  refine (proj2 (proj2 (optimizeTest_inv
            (fun s => drawn_from data (tmpA s) /\ drawn_from data (tmpB s) /\
                      (ret s = true ->
                       drawn_from data (partA s) /\ drawn_from data (partB s)))
            partA0 partB0 d0 rest iter test0 g st _ _ _ H)) Hr).
  - intros g0 vmin vmax s s' (HA & HB & HR) Hb.
    destruct (threshold_body_step _ _ _ _ _ _ Hb)
      as (a & b & Es & Ea & Eb & _ & Hc).
    assert (Hab : drawn_from data a /\ drawn_from data b).
    { destruct (split_appends_in_order_lists _ _ _ _ _ _ _ Es)
        as (ma & mb & -> & -> & Hma & Hmb).
      split; apply List.Forall_app; split; assumption. }
    rewrite Ea, Eb. destruct Hab as [Da Db].
    split; [exact Da|]. split; [exact Db|].
    destruct Hc as [(Er & _ & Pa & Pb) | (_ & _ & Pa & Pb)].
    + rewrite Er, Pa, Pb. exact HR.
    + rewrite Pa, Pb. auto.
  - intros s vs g' Hs. exact Hs.
  - split; [constructor|]. split; [constructor|]. discriminate.
Qed.

(** X7.  When split search reports success on patches of positive width and
    height, the test it returns has six slots and its two pixel positions
    lie inside the patch of [data[0]]: columns in [0, width), rows in
    [0, height). *)
Theorem success_test_inside_patch partA0 partB0 d0 rest iter test0 g st :
  0 < mat_width (patch d0) -> 0 < mat_height (patch d0) ->
  optimizeTest N_THRESHOLD_IT logdet partA0 partB0 (d0 :: rest) iter test0 g
    = Ok st ->
  ret st = true ->
  length (test st) = 6%nat /\
  inside_patch (mat_width (patch d0)) (mat_height (patch d0)) (test st).
Proof.
  intros Hw Hh H Hr.
  refine (optimizeTest_inv
            (fun s => ret s = true ->
                      length (test s) = 6%nat /\
                      inside_patch (mat_width (patch d0))
                                   (mat_height (patch d0)) (test s))
            partA0 partB0 d0 rest iter test0 g st _ _ _ H Hr).
  - intros g0 vmin vmax s s' Hs Hb Ht.
    destruct (threshold_body_step _ _ _ _ _ _ Hb)
      as (a & b & _ & _ & _ & _ & [(Er & Et & _) | (_ & Et & _)]).
    + rewrite Et. apply Hs. congruence.
    + rewrite Et.
      destruct (generateTest_shape _ _ g0 Hw Hh)
        as (t0 & t1 & t2 & t3 & g' & -> & H0 & H1 & H2 & H3 & _).
      cbn [fst firstn app length]. unfold inside_patch, test_at. cbn [nth].
      repeat split; try assumption; lia.
  - intros s vs g' Hs. exact Hs.
  - discriminate.
Qed.

Lemma advanced_trans a b g g' g'' :
  advanced a g g' -> advanced b g' g'' -> advanced (a + b) g g''.
Proof. unfold advanced. intros [E1 P1] [E2 P2]. split; [congruence|lia]. Qed.

Lemma advanced_weaken a b g g' :
  (a <= b)%nat -> advanced a g g' -> advanced b g g'.
Proof. unfold advanced. intros Hab [E P]. split; [exact E|lia]. Qed.

Lemma uniform_advanced a b g : advanced 1 g (snd (uniform a b g)).
Proof.
  unfold uniform, advanced. destruct (a =? b); cbn [rng_next snd draws pos].
  - split; [reflexivity|lia].
  - split; [reflexivity|lia].
Qed.

Lemma generateTest_advanced width height g :
  advanced 4 g (snd (generateTest width height g)).
Proof.
  unfold generateTest.
  pose proof (uniform_advanced 0 width g) as H0.
  destruct (uniform 0 width g) as [t0 g0]. cbn [snd] in H0.
  pose proof (uniform_advanced 0 height g0) as H1.
  destruct (uniform 0 height g0) as [t1 g1]. cbn [snd] in H1.
  pose proof (uniform_advanced 0 width g1) as H2.
  destruct (uniform 0 width g1) as [t2 g2]. cbn [snd] in H2.
  pose proof (uniform_advanced 0 height g2) as H3.
  destruct (uniform 0 height g2) as [t3 g3]. cbn [snd] in H3.
  cbn [snd].
  apply (advanced_trans 3 1 g g2 g3); [|exact H3].
  apply (advanced_trans 2 1 g g1 g2); [|exact H2].
  apply (advanced_trans 1 1 g g0 g1); assumption.
Qed.

Lemma threshold_loop_advanced data tmpTest vmin vmax n : forall st st',
  threshold_loop logdet n data tmpTest vmin vmax st = Ok st' ->
  advanced n (rng st) (rng st').
Proof.
  induction n as [|n IH]; intros st st' H; simpl in H.
  - inversion H; subst. split; [reflexivity|lia].
  - destruct (threshold_body logdet data tmpTest vmin vmax st) as [s1|] eqn:E;
      cbn [bind] in H; [|discriminate].
    destruct (threshold_body_step _ _ _ _ _ _ E)
      as (a & b & _ & _ & _ & Eg & _).
    apply (advanced_trans 1 n (rng st) (rng s1) (rng st')); [|apply IH, H].
    rewrite Eg. apply uniform_advanced.
Qed.

Lemma outer_loop_advanced data width height n : forall st st',
  outer_loop N_THRESHOLD_IT logdet n data width height st = Ok st' ->
  advanced (n * (4 + N_THRESHOLD_IT)) (rng st) (rng st').
Proof.
  induction n as [|n IH]; intros st st' H; simpl in H.
  - inversion H; subst. split; [reflexivity|lia].
  - destruct (outer_body N_THRESHOLD_IT logdet data width height st)
      as [s1|] eqn:E; cbn [bind] in H; [|discriminate].
    change (S n * (4 + N_THRESHOLD_IT))%nat
      with ((4 + N_THRESHOLD_IT) + n * (4 + N_THRESHOLD_IT))%nat.
    apply (advanced_trans _ _ (rng st) (rng s1) (rng st')); [|apply IH, H].
    apply outer_body_step in E. cbv zeta in E.
    pose proof (generateTest_advanced width height (rng st)) as Hg.
    destruct E as [-> | (vmin & vmax & Hl)].
    + cbn [rng]. eapply advanced_weaken; [|exact Hg]. lia.
    + apply threshold_loop_advanced in Hl. cbn [rng] in Hl.
      eapply advanced_trans; eassumption.
Qed.

(** X9.  Split search only reads the random source forward: the sequence of
    draws is the one it was given, the read position never moves back, and
    a call with [iter] outer passes takes at most
    [iter * (4 + N_THRESHOLD_IT)] draws. *)
Theorem optimizeTest_draw_budget partA0 partB0 data iter test0 g st :
  optimizeTest N_THRESHOLD_IT logdet partA0 partB0 data iter test0 g = Ok st ->
  draws (rng st) = draws g /\
  (pos g <= pos (rng st) <= pos g + iter * (4 + N_THRESHOLD_IT))%nat.
Proof.
  unfold optimizeTest. intros H. destruct data as [|d0 rest]; [discriminate|].
  apply outer_loop_advanced in H. exact H.
Qed.

End SplitSearchReturns.

(** One pass over two patches scores nothing: the search fails and hands
    back what it was given. *)
Lemma failure_leaves_outputs_untouched_witness :
  exists st,
    optimizeTest 1 (logdet_cases nan) [px 3 0 0 0] [] two_patches 1
                 [7; 7; 7; 7; 7; 7] (mkRNG seed01 0) = Ok st /\
    ret st = false /\
    test st = [7; 7; 7; 7; 7; 7] /\ partA st = [px 3 0 0 0] /\ partB st = [].
Proof.
  destruct (optimizeTest 1 (logdet_cases nan) [px 3 0 0 0] [] two_patches 1
              [7; 7; 7; 7; 7; 7] (mkRNG seed01 0)) as [st|f] eqn:E.
  - exists st. split; [reflexivity|].
    assert (Hr : ret st = false)
      by (vm_compute in E; inversion E; reflexivity).
    split; [exact Hr|].
    exact (failure_leaves_outputs_untouched 1 (logdet_cases nan)
             [px 3 0 0 0] [] two_patches 1 [7; 7; 7; 7; 7; 7]
             (mkRNG seed01 0) st E Hr).
  - exfalso. vm_compute in E. discriminate E.
Defined.

Lemma success_parts_drawn_from_data_witness :
  exists st,
    optimizeTest 1 (logdet_cases nan) [] [] patches4 4 test_uninit
                 (mkRNG seed01 0) = Ok st /\
    ret st = true /\
    drawn_from patches4 (partA st) /\ drawn_from patches4 (partB st).
Proof.
  destruct (optimizeTest 1 (logdet_cases nan) [] [] patches4 4 test_uninit
              (mkRNG seed01 0)) as [st|f] eqn:E.
  - exists st. split; [reflexivity|].
    assert (Hr : ret st = true)
      by (vm_compute in E; inversion E; reflexivity).
    split; [exact Hr|].
    exact (success_parts_drawn_from_data 1 (logdet_cases nan) [] [] patches4 4
             test_uninit (mkRNG seed01 0) st E Hr).
  - exfalso. vm_compute in E. discriminate E.
Defined.

Lemma success_test_inside_patch_witness :
  exists st,
    optimizeTest 1 (logdet_cases nan) [] [] patches4 4 test_uninit
                 (mkRNG seed01 0) = Ok st /\
    ret st = true /\
    length (test st) = 6%nat /\ inside_patch 2 1 (test st).
Proof.
  destruct (optimizeTest 1 (logdet_cases nan) [] [] patches4 4 test_uninit
              (mkRNG seed01 0)) as [st|f] eqn:E.
  - exists st. split; [reflexivity|].
    assert (Hr : ret st = true)
      by (vm_compute in E; inversion E; reflexivity).
    split; [exact Hr|].
    refine (success_test_inside_patch 1 (logdet_cases nan) [] []
              (px 1 0 1 1) [px 1 0 1 (-1); px 1 0 (-1) 1; px 3 0 (-1) (-1)]
              4 test_uninit (mkRNG seed01 0) st _ _ E Hr); reflexivity.
  - exfalso. vm_compute in E. discriminate E.
Defined.

Lemma optimizeTest_draw_budget_witness :
  exists st,
    optimizeTest 1 (logdet_cases nan) [] [] patches4 4 test_uninit
                 (mkRNG seed01 0) = Ok st /\
    draws (rng st) = seed01 /\
    (0 <= pos (rng st) <= 0 + 4 * (4 + 1))%nat.
Proof.
  destruct (optimizeTest 1 (logdet_cases nan) [] [] patches4 4 test_uninit
              (mkRNG seed01 0)) as [st|f] eqn:E.
  - exists st. split; [reflexivity|].
    exact (optimizeTest_draw_budget 1 (logdet_cases nan) [] [] patches4 4
             test_uninit (mkRNG seed01 0) st E).
  - exfalso. vm_compute in E. discriminate E.
Defined.

(** ** Tree storage *)

Lemma table_write_in i v t :
  0 <= i < Z.of_nat (length (treetable t)) ->
  table_write i v t = Ok (with_table t (<[Z.to_nat i := v]> (treetable t))).
Proof.
  intros Hi. unfold table_write.
  assert (E : (0 <=? i) && (i <? Z.of_nat (length (treetable t))) = true).
  { apply andb_true_intro. split; [apply Z.leb_le | apply Z.ltb_lt]; lia. }
  rewrite E. reflexivity.
Qed.

Lemma table_write_out i v t :
  ~ 0 <= i < Z.of_nat (length (treetable t)) ->
  table_write i v t = Fault (TableOutOfBounds i).
Proof.
  intros Hi. unfold table_write.
  destruct ((0 <=? i) && (i <? Z.of_nat (length (treetable t)))) eqn:E;
    [|reflexivity].
  apply andb_prop in E. destruct E as [E1 E2].
  apply Z.leb_le in E1. apply Z.ltb_lt in E2. lia.
Qed.

Lemma table_write_frame i v t t' :
  table_write i v t = Ok t' -> same_frame t t' /\ numLeaves t' = numLeaves t.
Proof.
  unfold table_write. destruct (_ && _); [|discriminate].
  intros H. inversion H; subst; clear H. unfold same_frame.
  cbn [minSamples maxDepth numNodes leaf treetable numLeaves].
  rewrite length_insert. repeat split; lia.
Qed.

Lemma store_params_in params : forall base k t,
  0 <= base + Z.of_nat k ->
  base + Z.of_nat k + Z.of_nat (length params)
    <= Z.of_nat (length (treetable t)) ->
  store_params base k params t =
    Ok (with_table t (list_inserts (Z.to_nat (base + Z.of_nat k)) params
                                   (treetable t))).
Proof.
  induction params as [|v ps IH]; intros base k t H0 H1.
  - destruct t; reflexivity.
  - cbn [store_params]. cbn [length] in H1.
    rewrite table_write_in by lia. cbn [bind].
    rewrite IH.
    + unfold with_table.
      cbn [minSamples maxDepth numNodes leaf treetable numLeaves].
      replace (Z.to_nat (base + Z.of_nat (S k)))
        with (S (Z.to_nat (base + Z.of_nat k))) by lia.
      cbn [list_inserts].
      rewrite <- list_insert_inserts_lt by lia. reflexivity.
    + lia.
    + unfold with_table. cbn [treetable]. rewrite length_insert. lia.
Qed.

Lemma store_params_frame params : forall base k t t',
  store_params base k params t = Ok t' ->
  same_frame t t' /\ numLeaves t' = numLeaves t.
Proof.
  induction params as [|v ps IH]; intros base k t t' H; cbn [store_params] in H.
  - inversion H; subst. unfold same_frame. repeat split; lia.
  - destruct (table_write (base + Z.of_nat k) v t) as [t1|] eqn:E;
      cbn [bind] in H; [|discriminate].
    destruct (table_write_frame _ _ _ _ E) as [(A1 & A2 & A3 & A4 & A5 & A6) A7].
    destruct (IH _ _ _ _ H) as [(B1 & B2 & B3 & B4 & B5 & B6) B7].
    unfold same_frame. repeat split; try congruence; lia.
Qed.

Lemma store_test_frame node tst t t' :
  store_test node tst t = Ok t' ->
  same_frame t t' /\ numLeaves t' = numLeaves t.
Proof.
  unfold store_test. intros H.
  destruct (table_write (node * 7) (-1) t) as [t1|] eqn:E;
    cbn [bind] in H; [|discriminate].
  destruct (table_write_frame _ _ _ _ E) as [(A1 & A2 & A3 & A4 & A5 & A6) A7].
  destruct (store_params_frame _ _ _ _ _ H)
    as [(B1 & B2 & B3 & B4 & B5 & B6) B7].
  unfold same_frame. repeat split; try congruence; lia.
Qed.

Lemma makeLeaf_frame data node t t' :
  makeLeaf data node t = Ok t' -> same_frame t t'.
Proof.
  unfold makeLeaf. intros H.
  destruct (table_write (node * 7) (numLeaves t) t) as [t1|] eqn:E;
    cbn [bind] in H; [|discriminate].
  destruct (table_write_frame _ _ _ _ E) as [(A1 & A2 & A3 & A4 & A5 & A6) A7].
  inversion H; subst; clear H. unfold same_frame.
  cbn [minSamples maxDepth numNodes leaf treetable numLeaves].
  repeat split; try assumption; lia.
Qed.

Lemma store_test_in node tst t :
  0 <= node ->
  node * 7 + 1 + Z.of_nat (length (firstn 6 tst))
    <= Z.of_nat (length (treetable t)) ->
  store_test node tst t =
    Ok (with_table t (list_inserts (Z.to_nat (node * 7)) (-1 :: firstn 6 tst)
                                   (treetable t))).
Proof.
  intros Hn Hl. unfold store_test.
  rewrite table_write_in by lia. cbn [bind].
  rewrite store_params_in.
  - unfold with_table.
    cbn [minSamples maxDepth numNodes leaf treetable numLeaves list_inserts].
    replace (Z.to_nat (node * 7 + 1 + Z.of_nat 0))
      with (S (Z.to_nat (node * 7))) by lia.
    rewrite <- list_insert_inserts_lt by lia. reflexivity.
  - lia.
  - unfold with_table. cbn [treetable]. rewrite length_insert. lia.
Qed.

(** X10.  Storing a test at a node whose seven slots lie inside the table
    succeeds and reads back: slot 0 of the node holds the marker -1, slots 1
    to 6 hold the six test parameters in order, every slot of every other
    node is as before, and [numLeaves], the leaf array and the size of the
    table are unchanged. *)
Theorem store_test_reads_back node tst t :
  0 <= node ->
  node * 7 + 7 <= Z.of_nat (length (treetable t)) ->
  length tst = 6%nat ->
  exists t',
    store_test node tst t = Ok t' /\
    treetable t' !! Z.to_nat (node * 7) = Some (-1) /\
    (forall k : nat, (k < 6)%nat ->
       treetable t' !! (Z.to_nat (node * 7) + 1 + k)%nat = tst !! k) /\
    (forall j : nat,
       (j < Z.to_nat (node * 7))%nat \/ (Z.to_nat (node * 7) + 7 <= j)%nat ->
       treetable t' !! j = treetable t !! j) /\
    length (treetable t') = length (treetable t) /\
    numLeaves t' = numLeaves t /\ leaf t' = leaf t.
Proof.
  intros Hn Hl Ht.
  assert (Hf : firstn 6 tst = tst) by (apply take_ge; lia).
  eexists. split.
  { apply store_test_in; [exact Hn|]. rewrite Hf. lia. }
  rewrite Hf. unfold with_table.
  cbn [minSamples maxDepth numNodes leaf treetable numLeaves].
  set (o := Z.to_nat (node * 7)).
  split; [|split; [|split; [|split; [|split]]]]; try reflexivity.
  - rewrite list_lookup_inserts by (cbn [length]; lia).
    rewrite Nat.sub_diag. reflexivity.
  - intros k Hk. rewrite list_lookup_inserts by (cbn [length]; lia).
    replace (o + 1 + k - o)%nat with (S k) by lia. reflexivity.
  - intros j [Hj|Hj].
    + apply list_lookup_inserts_lt. exact Hj.
    + apply list_lookup_inserts_ge. cbn [length]. lia.
  - apply length_inserts.
Qed.

Lemma store_test_reads_back_witness :
  exists t',
    store_test 2 [1; 0; 1; 0; 0; 5] (CRTree_new 0 1) = Ok t' /\
    treetable t' !! Z.to_nat (2 * 7) = Some (-1) /\
    (forall k : nat, (k < 6)%nat ->
       treetable t' !! (Z.to_nat (2 * 7) + 1 + k)%nat
         = [1; 0; 1; 0; 0; 5] !! k) /\
    (forall j : nat,
       (j < Z.to_nat (2 * 7))%nat \/ (Z.to_nat (2 * 7) + 7 <= j)%nat ->
       treetable t' !! j = treetable (CRTree_new 0 1) !! j) /\
    length (treetable t') = length (treetable (CRTree_new 0 1)) /\
    numLeaves t' = numLeaves (CRTree_new 0 1) /\
    leaf t' = leaf (CRTree_new 0 1).
Proof.
  apply (store_test_reads_back 2 [1; 0; 1; 0; 0; 5] (CRTree_new 0 1)).
  - lia.
  - vm_compute. discriminate.
  - reflexivity.
Defined.

(** ** Tree induction *)

Lemma same_frame_refl t : same_frame t t.
Proof. unfold same_frame. repeat split; lia. Qed.

Lemma run_extends_refl w : run_extends w w.
Proof.
  unfold run_extends. split; [apply same_frame_refl|].
  repeat split; try lia. exists []. symmetry. apply app_nil_r.
Qed.

Lemma run_extends_trans w1 w2 w3 :
  run_extends w1 w2 -> run_extends w2 w3 -> run_extends w1 w3.
Proof.
  intros ((A1 & A2 & A3 & A4 & A5 & A6) & Ad & Ap & (m1 & Ac))
         ((B1 & B2 & B3 & B4 & B5 & B6) & Bd & Bp & (m2 & Bc)).
  unfold run_extends, same_frame.
  repeat split; try congruence; try lia.
  exists (m1 ++ m2). rewrite Bc, Ac, app_assoc. reflexivity.
Qed.

Lemma run_ok_step h w w1 o :
  run_extends w w1 ->
  (h -> List.Forall heap_slot (calls w) -> List.Forall heap_slot (calls w1)) ->
  run_ok h w1 o -> run_ok h w o.
Proof.
  intros He Hh [Ho Hc]. split.
  - eapply run_extends_trans; eassumption.
  - auto.
Qed.

Lemma run_ok_stop h w f : run_ok h w (w, Some f).
Proof. split; [apply run_extends_refl | auto]. Qed.

Lemma run_ok_on_tree h w r :
  (forall t', r = Ok t' -> same_frame (tree w) t') ->
  run_ok h w (on_tree w r).
Proof.
  intros Hr. destruct r as [t'|f]; cbn [on_tree]; [|apply run_ok_stop].
  split; cbn [fst tree source calls].
  - unfold run_extends. cbn [tree source calls].
    split; [apply Hr; reflexivity|]. repeat split; try lia.
    exists []. symmetry. apply app_nil_r.
  - auto.
Qed.

Lemma run_ok_and_then h w o k :
  run_ok h w o -> (forall w1, run_ok h w1 (k w1)) ->
  run_ok h w (and_then o k).
Proof.
  intros Ho Hk. destruct o as [w1 [f|]]; cbn [and_then]; [exact Ho|].
  destruct Ho as [He Hc]. cbn [fst] in *.
  apply (run_ok_step h w w1); [exact He | exact Hc | apply Hk].
Qed.

Lemma run_ok_weaken (h h' : Prop) w o :
  (h -> h') -> run_ok h' w o -> run_ok h w o.
Proof. intros Hh [He Hc]. split; auto. Qed.

Lemma heap_slot_left node depth :
  heap_slot (node, depth) -> heap_slot (2 * node + 1, depth + 1).
Proof.
  unfold heap_slot. cbn [fst snd]. intros (Hd & Hlo & Hhi).
  rewrite !Z.pow_add_r in * by lia. change (2 ^ 1) with 2 in *. lia.
Qed.

Lemma heap_slot_right node depth :
  heap_slot (node, depth) -> heap_slot (2 * node + 2, depth + 1).
Proof.
  unfold heap_slot. cbn [fst snd]. intros (Hd & Hlo & Hhi).
  rewrite !Z.pow_add_r in * by lia. change (2 ^ 1) with 2 in *. lia.
Qed.

Section GrowFacts.

Variable N_THRESHOLD_IT : nat.
Variable logdet : list (Q * Q) -> float.

Lemma grow_run : forall fuel data node depth samples w,
  run_ok (heap_slot (node, depth)) w
         (grow N_THRESHOLD_IT logdet fuel data node depth samples w).
Proof.
  induction fuel as [|fuel IH]; intros data node depth samples w.
  - apply run_ok_stop.
  - cbn [grow]. cbv zeta. cbn [tree source calls].
    set (w1 := mkWorld (tree w) (source w) (calls w ++ [(node, depth)])).
    apply (run_ok_step _ w w1).
    { unfold run_extends, w1. cbn [tree source calls].
      split; [apply same_frame_refl|]. repeat split; try lia.
      exists [(node, depth)]. reflexivity. }
    { intros Hs Hc. unfold w1. cbn [calls].
      apply List.Forall_app. split; [exact Hc|].
      constructor; [exact Hs | constructor]. }
    destruct (depth <? maxDepth (tree w)).
    { apply run_ok_on_tree. intros t'. apply makeLeaf_frame. }
    destruct (optimizeTest N_THRESHOLD_IT logdet [] [] data samples
                test_uninit (source w)) as [st|f] eqn:E;
      [|apply run_ok_stop].
    set (w2 := mkWorld (tree w) (rng st) (calls w ++ [(node, depth)])).
    apply (run_ok_step _ w1 w2).
    { unfold optimizeTest in E. destruct data as [|d0 rest]; [discriminate|].
      apply outer_loop_advanced in E. cbn [rng] in E. destruct E as [Ed Ep].
      unfold run_extends, w1, w2. cbn [tree source calls].
      split; [apply same_frame_refl|]. repeat split; try lia; try assumption.
      exists []. symmetry. apply app_nil_r. }
    { auto. }
    destruct (ret st).
    + apply run_ok_and_then.
      { apply run_ok_on_tree. intros t' Ht.
        apply (store_test_frame _ _ _ _ Ht). }
      intros wa. apply run_ok_and_then.
      { destruct (minSamples (tree wa) <? Z.of_nat (length (partA st))).
        - eapply run_ok_weaken; [apply heap_slot_left | apply IH].
        - apply run_ok_on_tree. intros t'. apply makeLeaf_frame. }
      intros wb.
      destruct (minSamples (tree wb) <? Z.of_nat (length (partB st))).
      * eapply run_ok_weaken; [apply heap_slot_right | apply IH].
      * apply run_ok_on_tree. intros t'. apply makeLeaf_frame.
    + apply run_ok_on_tree. intros t'. apply makeLeaf_frame.
Qed.

(** X12.  A run of [grow], however it ends, leaves the configuration
    (minSamples, maxDepth, numNodes), the leaf array and the size of the
    node table as they were; [numLeaves] never decreases; the random source
    is only read forward; and the log of calls is only appended to. *)
Theorem grow_keeps_frame fuel data node depth samples w :
  run_extends w
    (fst (grow N_THRESHOLD_IT logdet fuel data node depth samples w)).
Proof. apply grow_run. Qed.

(** X13.  Every call of [grow] in a run started by [growTree] has its node
    in the array slots of its depth: a call at depth d is for a node index
    between 2^d - 1 and 2^(d+1) - 2, the level-d positions of a complete
    binary tree stored with children at 2i+1 and 2i+2. *)
Theorem growTree_calls_follow_heap_numbering fuel patches seeded t :
  List.Forall heap_slot
    (calls_of (growTree N_THRESHOLD_IT logdet fuel patches seeded t)).
Proof.
  unfold growTree, calls_of. apply grow_run.
  - unfold heap_slot. cbn [fst snd]. change (2 ^ 0) with 1.
    change (2 ^ (0 + 1)) with 2. lia.
  - constructor.
Qed.

End GrowFacts.

Section GrowTreeOutcomes.

Variable N_THRESHOLD_IT : nat.
Variable logdet : list (Q * Q) -> float.

Lemma grow_step fuel data node depth samples w :
  grow N_THRESHOLD_IT logdet (S fuel) data node depth samples w =
    let w := mkWorld (tree w) (source w) (calls w ++ [(node, depth)]) in
    if depth <? maxDepth (tree w) then
      on_tree w (makeLeaf data node (tree w))
    else
      match optimizeTest N_THRESHOLD_IT logdet [] [] data samples
                         test_uninit (source w) with
      | Fault f => (w, Some f)
      | Ok st =>
          let w := mkWorld (tree w) (rng st) (calls w) in
          if ret st then
            and_then (on_tree w (store_test node (test st) (tree w)))
              (fun w =>
            and_then
              (if minSamples (tree w) <? Z.of_nat (length (partA st))
               then grow N_THRESHOLD_IT logdet fuel (partA st) (2 * node + 1)
                         (depth + 1) samples w
               else on_tree w (makeLeaf (partA st) (2 * node + 1) (tree w)))
              (fun w =>
               if minSamples (tree w) <? Z.of_nat (length (partB st))
               then grow N_THRESHOLD_IT logdet fuel (partB st) (2 * node + 2)
                         (depth + 1) samples w
               else on_tree w (makeLeaf (partB st) (2 * node + 2) (tree w))))
          else
            on_tree w (makeLeaf data node (tree w))
      end.
Proof. reflexivity. Qed.




Lemma optimizeTest_success_nonempty partA0 partB0 data iter test0 g st :
  optimizeTest N_THRESHOLD_IT logdet partA0 partB0 data iter test0 g = Ok st ->
  ret st = true ->
  partA st <> [] /\ partB st <> [].
Proof.
  intros H Hr. unfold optimizeTest in H.
  destruct data as [|d0 data']; [discriminate|].
  apply (outer_loop_inv N_THRESHOLD_IT logdet
           (parts_inv (length (d0 :: data')))) in H.
  - destruct H as (_ & _ & HR). destruct (HR Hr) as [Ha Hb].
    cbn [length] in Ha, Hb.
    split; intros E; rewrite E in *; cbn [length] in *; lia.
  - intros s s'. apply outer_body_parts.
  - unfold parts_inv, whole. cbn [tmpA tmpB ret length].
    repeat split; auto; discriminate.
Qed.

(** On a one-node table, every way [grow] can treat node 1 ends in a write
    at offset 7. *)
Lemma child_writes_past_one_node fuel part depth samples w :
  part <> [] ->
  maxDepth (tree w) = 0 -> 0 <= depth ->
  length (treetable (tree w)) = 7%nat ->
  exists w',
    (if minSamples (tree w) <? Z.of_nat (length part)
     then grow N_THRESHOLD_IT logdet (S fuel) part 1 depth samples w
     else on_tree w (makeLeaf part 1 (tree w)))
      = (w', Some (TableOutOfBounds 7)) /\
    tree w' = tree w.
Proof.
  intros Hne Hmd Hd Hl.
  assert (Hw : forall v,
             table_write (1 * 7) v (tree w) = Fault (TableOutOfBounds 7)).
  { intros v. apply table_write_out. rewrite Hl. lia. }
  assert (Hleaf : forall data w0,
            on_tree w0 (makeLeaf data 1 (tree w))
              = (w0, Some (TableOutOfBounds 7))).
  { intros data w0. unfold makeLeaf. rewrite Hw. reflexivity. }
  destruct (minSamples (tree w) <? Z.of_nat (length part)).
  - rewrite grow_step. cbv zeta. cbn [tree source calls].
    assert (E : (depth <? maxDepth (tree w)) = false)
      by (apply Z.ltb_ge; lia).
    rewrite E.
    destruct (optimizeTest_total N_THRESHOLD_IT logdet [] [] part samples
                test_uninit (source w) Hne) as [st Es].
    rewrite Es. destruct (ret st).
    + unfold store_test. rewrite Hw. cbn [bind on_tree and_then].
      eexists. split; reflexivity.
    + rewrite Hleaf. eexists. split; reflexivity.
  - rewrite Hleaf. eexists. split; reflexivity.
Qed.

(** X14.  With maxDepth = 0 a run of [growTree] on a freshly constructed
    tree and a non-empty training set has one of two ends, decided by the
    root's split search alone.  If the search fails, the root becomes leaf 0
    and the run ends without fault.  If it succeeds, the root is marked
    internal (slot 0 holds -1), no leaf is counted, and the run stops at a
    write to offset 7 of the 7-int table: the first write for node 1. *)
Theorem growTree_depth_zero_outcomes fuel patches seeded ms :
  patches <> [] ->
  exists st,
    optimizeTest N_THRESHOLD_IT logdet [] [] patches (length patches)
                 test_uninit (mkRNG seeded 0) = Ok st /\
    let o := growTree N_THRESHOLD_IT logdet (S (S fuel)) patches seeded
                      (CRTree_new ms 0) in
    if ret st
    then fault_of o = Some (TableOutOfBounds 7) /\
         table_of o !! 0%nat = Some (-1) /\ leaves_of o = 0
    else o = (mkWorld (root_leaf (CRTree_new ms 0)) (rng st) [(0, 0)], None).
Proof.
  intros Hne.
  destruct (optimizeTest_total N_THRESHOLD_IT logdet [] [] patches
              (length patches) test_uninit (mkRNG seeded 0) Hne) as [st E].
  exists st. split; [exact E|]. cbv zeta.
  unfold growTree. rewrite grow_step. cbv zeta. cbn [tree source calls app].
  change (0 <? maxDepth (CRTree_new ms 0)) with false. cbv iota.
  rewrite E. destruct (ret st) eqn:Er.
  - destruct (optimizeTest_success_nonempty _ _ _ _ _ _ _ E Er) as [HA HB].
    rewrite store_test_in.
    2: lia.
    2: { change (length (treetable (CRTree_new ms 0))) with 7%nat.
         rewrite length_take. lia. }
    cbn [on_tree and_then tree source calls].
    set (t1 := with_table (CRTree_new ms 0) _).
    assert (Hl : length (treetable t1) = 7%nat).
    { unfold t1, with_table. cbn [treetable]. rewrite length_inserts.
      reflexivity. }
    destruct (child_writes_past_one_node fuel (partA st) (0 + 1)
                (length patches) (mkWorld t1 (rng st) [(0, 0)])
                HA eq_refl ltac:(lia) Hl)
      as (w' & Ew & Et).
    change (2 * 0 + 1) with 1. cbn [tree] in Ew, Et.
    rewrite Ew. cbn [and_then]. unfold fault_of, table_of, leaves_of.
    cbn [fst snd]. rewrite Et.
    split; [reflexivity|]. split; [|reflexivity].
    unfold t1, with_table. cbn [treetable].
    rewrite list_lookup_inserts.
    + reflexivity.
    + cbn [length]. lia.
    + change (length (treetable (CRTree_new ms 0))) with 7%nat. lia.
  - unfold makeLeaf. rewrite table_write_in.
    + reflexivity.
    + change (length (treetable (CRTree_new ms 0))) with 7%nat. lia.
Qed.

End GrowTreeOutcomes.


Lemma growTree_depth_zero_outcomes_witness :
  exists st,
    optimizeTest 1 (logdet_cases nan) [] [] patches4 (length patches4)
                 test_uninit (mkRNG seed01 0) = Ok st /\
    let o := growTree 1 (logdet_cases nan) (S (S 0)) patches4 seed01
                      (CRTree_new 100 0) in
    if ret st
    then fault_of o = Some (TableOutOfBounds 7) /\
         table_of o !! 0%nat = Some (-1) /\ leaves_of o = 0
    else o = (mkWorld (root_leaf (CRTree_new 100 0)) (rng st) [(0, 0)], None).
Proof.
  apply (growTree_depth_zero_outcomes 1 (logdet_cases nan) 0 patches4 seed01
           100).
  discriminate.
Defined.

(** ** Pixel differences *)

Lemma nth_Forall {A} (P : A -> Prop) (l : list A) (d : A) (i : nat) :
  List.Forall P l -> P d -> P (nth i l d).
Proof.
  intros Hl Hd. revert i. induction Hl as [|x l Hx Hl IH]; intros [|i]; simpl;
    auto.
Qed.

Lemma mat_at_uchar p row col :
  uchar_patch p -> 0 <= mat_at (patch p) row col <= 255.
Proof.
  intros Hp. unfold mat_at.
  apply (nth_Forall (fun v => 0 <= v <= 255)); [|lia].
  apply (nth_Forall (List.Forall (fun v => 0 <= v <= 255)));
    [exact Hp | constructor].
Qed.

Lemma evaluate_from_uchar data test : forall i,
  List.Forall uchar_patch data ->
  List.Forall uchar_difference (evaluate_from i data test).
Proof.
  intros i H. revert i. induction H as [|p data Hp Hd IH]; intros i; simpl;
    constructor; [|apply IH].
  unfold uchar_difference. cbn [difference].
  pose proof (mat_at_uchar p (test_at test 1) (test_at test 0) Hp).
  pose proof (mat_at_uchar p (test_at test 3) (test_at test 2) Hp).
  lia.
Qed.

(** X15.  On patches of 8-bit pixels every difference [evaluateTest] computes
    lies in [-255, 255], whatever the test (a position outside a patch reads
    as 0 here): if the entries handed in are in that range, so are all
    entries of the result, and the spread between the first and the last
    entry of the sorted result is between 0 and 510. *)
Theorem evaluateTest_differences_are_uchar_differences data test vs d :
  List.Forall uchar_patch data ->
  List.Forall uchar_difference vs ->
  List.Forall uchar_difference (evaluateTest data test vs) /\
  0 <= difference (List.last (evaluateTest data test vs) d)
       - difference (hd d (evaluateTest data test vs)) <= 510 \/
  evaluateTest data test vs = [].
Proof.
  intros Hd Hv.
  assert (Ha : List.Forall uchar_difference (evaluateTest data test vs)).
  { unfold evaluateTest. apply std_sort_Forall, List.Forall_app.
    split; [exact Hv | apply evaluate_from_uchar, Hd]. }
  pose proof (evaluateTest_sorted data test vs) as Hs.
  destruct (evaluateTest data test vs) as [|x l] eqn:E; [right; reflexivity|].
  left. split; [exact Ha|].
  assert (Hlast : In (List.last (x :: l) d) (x :: l)).
  { clear. revert x. induction l as [|y l IH]; intros x; [left; reflexivity|].
    right. apply IH. }
  rewrite List.Forall_forall in Ha.
  pose proof (Ha _ Hlast) as H1. pose proof (Ha x (or_introl eq_refl)) as H2.
  unfold uchar_difference in H1, H2. cbn [hd].
  inversion Hs as [|? ? Hs' Hx]; subst.
  destruct Hlast as [<- | Hin]; [lia|].
  rewrite List.Forall_forall in Hx. pose proof (Hx _ Hin) as H3.
  unfold by_difference in H3. lia.
Qed.

Lemma evaluateTest_differences_are_uchar_differences_witness :
  List.Forall uchar_difference
    (evaluateTest two_patches [0; 0; 1; 0; 0; 0] two_diffs) /\
  0 <= difference (List.last (evaluateTest two_patches [0; 0; 1; 0; 0; 0]
                                           two_diffs) (mkIntIndex 0 0))
       - difference (hd (mkIntIndex 0 0)
                        (evaluateTest two_patches [0; 0; 1; 0; 0; 0]
                                      two_diffs)) <= 510 \/
  evaluateTest two_patches [0; 0; 1; 0; 0; 0] two_diffs = [].
Proof.
  apply (evaluateTest_differences_are_uchar_differences two_patches
           [0; 0; 1; 0; 0; 0] two_diffs (mkIntIndex 0 0)).
  - repeat constructor; lia.
  - repeat constructor; unfold uchar_difference; simpl; lia.
Defined.
